(** * mongoose-cursor-paginate: the [paginate] static of index.js

    A shallow embedding of [paginate] (index.js, lines 29-186) together
    with models of the libraries it calls (lodash, object-path) and of the
    collaborators it talks to (the cursor codec and the Mongoose model). *)

From Stdlib Require Import ZArith List String Ascii Bool Lia DecimalString.
From Stdlib Require Import Sorting.Sorted Sorting.Permutation.
Import ListNotations.

Local Open Scope string_scope.
Local Open Scope list_scope.
Local Open Scope Z_scope.

#[local] Set Warnings "-register-all".

(** ** JavaScript values *)

(** The values that flow through [paginate]: parameters, decoded cursors,
    Mongo filters and lean documents.  Numbers are the integers; [VDate]
    stands for a [Date] object (milliseconds since the epoch); an object is
    its list of own properties in insertion order. *)
Inductive value : Type :=
| VUndef
| VNull
| VBool (b : bool)
| VNum (n : Z)
| VStr (s : string)
| VDate (ms : Z)
| VArr (items : list value)
| VObj (props : list (string * value)).

Definition obj : Type := list (string * value).

(** JavaScript truthiness, as tested by [if (x)], [!x], [&&] and [||]. *)
Definition truthy (v : value) : bool :=
  match v with
  | VUndef | VNull => false
  | VBool b => b
  | VNum n => negb (n =? 0)
  | VStr s => negb (s =? "")%string
  | VDate _ | VArr _ | VObj _ => true
  end.

(** [o[k]] on an object: the own property, or [undefined]. *)
Fixpoint get_prop (o : obj) (k : string) : value :=
  match o with
  | [] => VUndef
  | (k', v) :: rest => if (k' =? k)%string then v else get_prop rest k
  end.

Fixpoint has_prop (o : obj) (k : string) : bool :=
  match o with
  | [] => false
  | (k', _) :: rest => if (k' =? k)%string then true else has_prop rest k
  end.

(** [o[k] = v]: an existing property keeps its place, a new one is added
    last. *)
Fixpoint set_prop (o : obj) (k : string) (v : value) : obj :=
  match o with
  | [] => [(k, v)]
  | (k', v') :: rest =>
      if (k' =? k)%string then (k', v) :: rest else (k', v') :: set_prop rest k v
  end.

(** [v[i]] for a numeric literal [i], on the values a decoded cursor can
    be: an array element, a character of a string, the property named by
    the index on an object, and [undefined] on numbers, booleans and
    dates. *)
Definition index_key (i : nat) : string :=
  NilZero.string_of_uint (Nat.to_uint i).

Definition js_index (v : value) (i : nat) : value :=
  match v with
  | VArr items => nth i items VUndef
  | VStr s => match String.get i s with
              | Some c => VStr (String c EmptyString)
              | None => VUndef
              end
  | VObj props => get_prop props (index_key i)
  | _ => VUndef
  end.

(** [v._id] on a value. *)
Definition js_member (v : value) (k : string) : value :=
  match v with
  | VObj props => get_prop props k
  | _ => VUndef
  end.

(** ** lodash *)

(** [_.extend(dst, src)] assigns the properties of [src], in order. *)
Definition extend (dst src : obj) : obj :=
  fold_left (fun acc kv => set_prop acc (fst kv) (snd kv)) src dst.

(** ** object-path *)

(** [path.split('.')]. *)
Fixpoint split_dot_from (acc : string) (s : string) : list string :=
  match s with
  | EmptyString => [acc]
  | String c rest =>
      if Ascii.eqb c "."%char then acc :: split_dot_from "" rest
      else split_dot_from (acc ++ String c EmptyString)%string rest
  end.

Definition split_dot (s : string) : list string := split_dot_from "" s.

Definition digit_of (c : ascii) : option nat :=
  let n := nat_of_ascii c in
  if andb (Nat.leb 48 n) (Nat.leb n 57) then Some (n - 48)%nat else None.

Fixpoint digits_value (acc : nat) (s : string) : option nat :=
  match s with
  | EmptyString => Some acc
  | String c rest =>
      match digit_of c with
      | Some d => digits_value (10 * acc + d)%nat rest
      | None => None
      end
  end.

(** [getKey]: a key that prints back as the integer it parses to is an
    array index. *)
Definition array_index (k : string) : option nat :=
  match k with
  | EmptyString => None
  | String c rest =>
      if andb (Ascii.eqb c "0"%char) (negb (rest =? "")%string) then None
      else digits_value 0 k
  end.

(** One step of the traversal, [getShallowProperty]: an own property of
    an object; an element of an array, or its [length]; a character of a
    string, or its [length]; nothing on anything else. *)
Definition shallow_property (v : value) (k : string) : value :=
  match v with
  | VObj props => get_prop props k
  | VArr items =>
      match array_index k with
      | Some i => nth i items VUndef
      | None =>
          if (k =? "length")%string then VNum (Z.of_nat (List.length items))
          else VUndef
      end
  | VStr s =>
      match array_index k with
      | Some i => match String.get i s with
                  | Some c => VStr (String c EmptyString)
                  | None => VUndef
                  end
      | None =>
          if (k =? "length")%string then VNum (Z.of_nat (String.length s))
          else VUndef
      end
  | _ => VUndef
  end.

Fixpoint get_path (v : value) (path : list string) : value :=
  match path with
  | [] => v
  | k :: rest =>
      match shallow_property v k with
      | VUndef => VUndef
      | w => get_path w rest
      end
  end.

(** [objectPath.get(o, path)]: the empty path is the object itself. *)
Definition objectPath_get (o : obj) (path : string) : value :=
  if (path =? "")%string then VObj o else get_path (VObj o) (split_dot path).

(** ** lodash: property paths and [_.omit]

    [_.omit(object, paths)] of lodash 4 takes property paths.  Each name
    is cast to a path by [castPath]: a name that [isKey] accepts is a path
    of one key, any other is cut into keys by [stringToPath]. *)

Definition dot : ascii := ascii_of_nat 46.
Definition open_bracket : ascii := ascii_of_nat 91.
Definition close_bracket : ascii := ascii_of_nat 93.
Definition backslash : ascii := ascii_of_nat 92.
Definition minus : ascii := ascii_of_nat 45.

(** [\w]: a letter, a digit or the underscore. *)
Definition is_word (c : ascii) : bool :=
  let n := nat_of_ascii c in
  (Nat.leb 48 n && Nat.leb n 57) || (Nat.leb 65 n && Nat.leb n 90)
  || (Nat.leb 97 n && Nat.leb n 122) || Nat.eqb n 95.

(** [\d]. *)
Definition is_digit (c : ascii) : bool :=
  let n := nat_of_ascii c in Nat.leb 48 n && Nat.leb n 57.

(** A double or a single quote. *)
Definition is_quote (c : ascii) : bool :=
  let n := nat_of_ascii c in Nat.eqb n 34 || Nat.eqb n 39.

(** What [.] does not match: a line feed or a carriage return. *)
Definition is_line_end (c : ascii) : bool :=
  let n := nat_of_ascii c in Nat.eqb n 10 || Nat.eqb n 13.

(** [[^.[\]]]: a character of a key written without brackets. *)
Definition is_key_char (c : ascii) : bool :=
  negb (Ascii.eqb c dot || Ascii.eqb c open_bracket || Ascii.eqb c close_bracket).

(** [[^[\]]]. *)
Definition is_unbracketed (c : ascii) : bool :=
  negb (Ascii.eqb c open_bracket || Ascii.eqb c close_bracket).

Fixpoint all_chars (f : ascii -> bool) (s : string) : bool :=
  match s with
  | EmptyString => true
  | String c rest => f c && all_chars f rest
  end.

Fixpoint take_while (f : ascii -> bool) (s : string) : string :=
  match s with
  | EmptyString => EmptyString
  | String c rest => if f c then String c (take_while f rest) else EmptyString
  end.

Fixpoint drop_while (f : ascii -> bool) (s : string) : string :=
  match s with
  | EmptyString => EmptyString
  | String c rest => if f c then drop_while f rest else s
  end.

(** [(?:(?!q)[^\\]|\\.)*?q] after an opening quote [q]: the text up to
    the first quote that no backslash escapes, and what follows that
    quote.  A backslash takes the next character with it, which must not
    end a line. *)
Fixpoint quoted (q : ascii) (s : string) : option (string * string) :=
  match s with
  | EmptyString => None
  | String c rest =>
      if Ascii.eqb c q then Some (EmptyString, rest)
      else if Ascii.eqb c backslash then
        match rest with
        | EmptyString => None
        | String d rest' =>
            if is_line_end d then None
            else match quoted q rest' with
                 | Some (text, after) => Some (String c (String d text), after)
                 | None => None
                 end
        end
      else match quoted q rest with
           | Some (text, after) => Some (String c text, after)
           | None => None
           end
  end.

(** [reIsPlainProp], [/^\w*$/]. *)
Definition reIsPlainProp (s : string) : bool := all_chars is_word s.

(** [reIsDeepProp]: somewhere in the string a dot, or a bracket pair
    with no bracket inside, or a bracket pair around a quoted text. *)
Definition closes_unquoted (s : string) : bool :=
  match drop_while is_unbracketed s with
  | String c _ => Ascii.eqb c close_bracket
  | EmptyString => false
  end.

Definition closes_quoted (s : string) : bool :=
  match s with
  | String q rest =>
      if is_quote q then
        match quoted q rest with
        | Some (_, String c _) => Ascii.eqb c close_bracket
        | _ => false
        end
      else false
  | EmptyString => false
  end.

Fixpoint reIsDeepProp (s : string) : bool :=
  match s with
  | EmptyString => false
  | String c rest =>
      Ascii.eqb c dot
      || (Ascii.eqb c open_bracket && (closes_unquoted rest || closes_quoted rest))
      || reIsDeepProp rest
  end.

(** [isKey(name, object)] for a string: a plain name, or one that has
    nothing of a path, or one that is a property of the object as it is
    spelled. *)
Definition isKey (name : string) (o : obj) : bool :=
  reIsPlainProp name || negb (reIsDeepProp name) || has_prop o name.

(** [subString.replace(reEscapeChar, '$1')]: a backslash goes and what
    it escaped stays. *)
Fixpoint unescape (s : string) : string :=
  match s with
  | EmptyString => EmptyString
  | String c rest =>
      if Ascii.eqb c backslash then
        match rest with
        | EmptyString => EmptyString
        | String d rest' =>
            if Ascii.eqb d backslash then String d (unescape rest')
            else unescape rest
        end
      else String c (unescape rest)
  end.

(** The second alternative of [rePropName], after the opening bracket:
    [-?\d+(?:\.\d+)?] or a quoted text, then the closing bracket.  The
    result is the key and what follows the closing bracket. *)
Definition bracket_number (s : string) : option (string * string) :=
  let sign := match s with
              | String c _ => if Ascii.eqb c minus then String c EmptyString
                              else EmptyString
              | EmptyString => EmptyString
              end in
  let s1 := match s with
            | String c rest => if Ascii.eqb c minus then rest else s
            | EmptyString => s
            end in
  let whole := take_while is_digit s1 in
  if (whole =? "")%string then None
  else
    match drop_while is_digit s1 with
    | String c s2 =>
        if Ascii.eqb c close_bracket then Some ((sign ++ whole)%string, s2)
        else if Ascii.eqb c dot then
          let part := take_while is_digit s2 in
          if (part =? "")%string then None
          else
            match drop_while is_digit s2 with
            | String c' s3 =>
                if Ascii.eqb c' close_bracket
                then Some ((sign ++ whole ++ String c part)%string, s3)
                else None
            | EmptyString => None
            end
        else None
    | EmptyString => None
    end.

Definition bracket_quoted (s : string) : option (string * string) :=
  match s with
  | String q rest =>
      if is_quote q then
        match quoted q rest with
        | Some (text, String c after) =>
            if Ascii.eqb c close_bracket then Some (unescape text, after)
            else None
        | _ => None
        end
      else None
  | EmptyString => None
  end.

Definition bracket (s : string) : option (string * string) :=
  match bracket_number s with
  | Some r => Some r
  | None => bracket_quoted s
  end.

(** The third alternative of [rePropName], which matches the empty key:
    the position is before a dot or [[]] that a dot, [[]] or the end
    follows. *)
Definition separator (s : string) : option string :=
  match s with
  | String c rest =>
      if Ascii.eqb c dot then Some rest
      else if Ascii.eqb c open_bracket then
        match rest with
        | String c' rest' =>
            if Ascii.eqb c' close_bracket then Some rest' else None
        | EmptyString => None
        end
      else None
  | EmptyString => None
  end.

Definition empty_key_here (s : string) : bool :=
  match separator s with
  | Some EmptyString => true
  | Some t => match separator t with Some _ => true | None => false end
  | None => false
  end.

(** The matches of [rePropName] over the string, from left to right.
    [skip] counts the characters of the last match that are still to be
    passed over. *)
Fixpoint keys_from (skip : nat) (s : string) : list string :=
  match s with
  | EmptyString => []
  | String c rest =>
      match skip with
      | S k => keys_from k rest
      | O =>
          if is_key_char c then
            let run := take_while is_key_char s in
            run :: keys_from (String.length run - 1) rest
          else
            match (if Ascii.eqb c open_bracket then bracket rest else None) with
            | Some (key, after) =>
                key :: keys_from (String.length rest - String.length after) rest
            | None =>
                if empty_key_here s then EmptyString :: keys_from 0 rest
                else keys_from 0 rest
            end
      end
  end.

(** [stringToPath]: a leading dot gives an empty first key. *)
Definition stringToPath (s : string) : list string :=
  match s with
  | String c _ => if Ascii.eqb c dot then [EmptyString] else []
  | EmptyString => []
  end ++ keys_from 0 s.

(** [castPath(name, object)]. *)
Definition castPath (name : string) (o : obj) : list string :=
  if isKey name o then [name] else stringToPath name.

(** [delete parent[key]]: an own property of an object goes; an element
    of an array leaves an empty slot, which reads as [undefined] and is
    written [VUndef]; on any other parent nothing changes. *)
Definition remove_prop (o : obj) (k : string) : obj :=
  filter (fun kv => negb (fst kv =? k)%string) o.

Fixpoint set_nth (i : nat) (v : value) (items : list value) : list value :=
  match items, i with
  | [], _ => []
  | _ :: rest, O => v :: rest
  | x :: rest, S j => x :: set_nth j v rest
  end.

Definition delete_key (parent : value) (k : string) : value :=
  match parent with
  | VObj props => VObj (remove_prop props k)
  | VArr items =>
      match array_index k with
      | Some i => if Nat.ltb i (List.length items)
                  then VArr (set_nth i VUndef items) else parent
      | None => parent
      end
  | _ => parent
  end.

(** [baseUnset(object, path)] on the clone that [_.omit] works on: the
    parent of the last key is reached through own properties and array
    elements, and the last key is deleted from it.  Where the way to the
    parent ends early nothing changes.  With no key at all, the key that
    is deleted is ['undefined']. *)
Fixpoint baseUnset (v : value) (path : list string) : value :=
  match path with
  | [] => delete_key v "undefined"
  | k :: rest =>
      match rest with
      | [] => delete_key v k
      | _ :: _ =>
          match v with
          | VObj props =>
              if has_prop props k
              then VObj (set_prop props k (baseUnset (get_prop props k) rest))
              else v
          | VArr items =>
              match array_index k with
              | Some i =>
                  if Nat.ltb i (List.length items)
                  then VArr (set_nth i (baseUnset (nth i items VUndef) rest) items)
                  else v
              | None => v
              end
          | _ => v
          end
      end
  end.

Definition unset_in (o : obj) (path : list string) : obj :=
  match baseUnset (VObj o) path with
  | VObj o' => o'
  | _ => o
  end.

(** [_.omit(o, names)]: every name is cast to a path against [o], and
    the paths are unset in a copy of [o], the last path first. *)
Definition omit (o : obj) (names : list string) : obj :=
  fold_right (fun path acc => unset_in acc path) o
             (map (fun name => castPath name o) names).

(** The top-level key at which a path starts. *)
Definition path_head (path : list string) : string :=
  match path with
  | [] => "undefined"
  | k :: _ => k
  end.

(** ** The collaborators *)

(** config.js is not among the sources: its two constants are parameters
    of the development. *)
Record Config : Type := {
  DEFAULT_LIMIT : Z;
  MAX_LIMIT : Z
}.

(** utils/bsonUrlEncoding.js is not among the sources either.  The codec
    is a parameter: [encode] turns a cursor value into a token, [decode]
    turns a token back into a value and is [None] where it throws. *)
Record Codec : Type := {
  encode : value -> string;
  decode : string -> option value
}.

(** What the chain [find(filter, fields).sort(sort).limit(n).lean(true)]
    hands to the store. *)
Record Query : Type := {
  q_filter : value;
  q_projection : option obj;
  q_sort : obj;
  q_limit : Z;
  q_lean : bool
}.

(** The promise of the chain: fulfilled with lean documents, or rejected. *)
Inductive Reply : Type :=
| Rows (docs : list obj)
| Failure (reason : string).

(** The Mongoose model [this]. *)
Definition Model : Type := Query -> Reply.

(** ** The params object *)

(** The properties of [params] as the JSDoc types them; [None] and
    [VUndef] are an absent property.  [next] and [previous] hold the
    caller's token (a [VStr]) on entry and the decoded value after
    lines 30-31. *)
Record Params : Type := {
  query : option value;
  limit : option Z;
  fields : option obj;
  paginatedField : option string;
  next : value;
  previous : value;
  sortAscending : option bool
}.

Definition set_previous (p : Params) (v : value) : Params :=
  {| query := query p; limit := limit p; fields := fields p;
     paginatedField := paginatedField p; next := next p; previous := v;
     sortAscending := sortAscending p |}.

Definition set_next (p : Params) (v : value) : Params :=
  {| query := query p; limit := limit p; fields := fields p;
     paginatedField := paginatedField p; next := v; previous := previous p;
     sortAscending := sortAscending p |}.

Definition set_limit (p : Params) (l : Z) : Params :=
  {| query := query p; limit := Some l; fields := fields p;
     paginatedField := paginatedField p; next := next p;
     previous := previous p; sortAscending := sortAscending p |}.

Definition set_fields (p : Params) (f : obj) : Params :=
  {| query := query p; limit := limit p; fields := Some f;
     paginatedField := paginatedField p; next := next p;
     previous := previous p; sortAscending := sortAscending p |}.

Definition set_sortAscending (p : Params) (b : option bool) : Params :=
  {| query := query p; limit := limit p; fields := fields p;
     paginatedField := paginatedField p; next := next p;
     previous := previous p; sortAscending := b |}.

(** Truthiness of [params.sortAscending]. *)
Definition flag (b : option bool) : bool :=
  match b with
  | Some true => true
  | _ => false
  end.

(** Reads of the three properties that line 33 always fills. *)
Definition params_query (p : Params) : value :=
  match query p with Some q => q | None => VUndef end.

Definition params_limit (p : Params) : Z :=
  match limit p with Some l => l | None => 0 end.

Definition params_paginatedField (p : Params) : string :=
  match paginatedField p with Some f => f | None => "undefined" end.

(** ** paginate, lines 30-42: decoding, defaults, clamping *)

(** [bsonUrlEncoding.decode(token)]: tokens are strings. *)
Definition decode_token (c : Codec) (token : value) : option value :=
  match token with
  | VStr s => decode c s
  | _ => None
  end.

(** [_.defaults(params, {query: {}, limit: DEFAULT_LIMIT,
    paginatedField: '_id'})]: only absent properties are filled, and
    [sortAscending] is not among them. *)
Definition defaults (cfg : Config) (p : Params) : Params :=
  {| query := Some (match query p with Some q => q | None => VObj [] end);
     limit := Some (match limit p with Some l => l | None => DEFAULT_LIMIT cfg end);
     fields := fields p;
     paginatedField :=
       Some (match paginatedField p with Some f => f | None => "_id" end);
     next := next p;
     previous := previous p;
     sortAscending := sortAscending p |}.

(** Lines 41-42. *)
Definition clamp (cfg : Config) (p : Params) : Params :=
  let p1 := if params_limit p <? 1 then set_limit p 1 else p in
  if params_limit p1 >? MAX_LIMIT cfg then set_limit p1 (MAX_LIMIT cfg) else p1.

(** Line 47. *)
Definition shouldSecondarySortOnId (p : Params) : bool :=
  negb (params_paginatedField p =? "_id")%string.

(** ** paginate, lines 49-72: the projection *)

Record Projection : Type := {
  proj_params : Params;
  proj_fields : option obj;
  fieldsToBeRemoveInResponse : list string;
  removePaginatedFieldInResponse : bool
}.

(** [params.fields._id === 0]. *)
Definition is_zero (v : value) : bool :=
  match v with
  | VNum 0 => true
  | _ => false
  end.

(** [fields] is the very object [params.fields]: what is written to the
    one is seen through the other. *)
Definition projection (p : Params) : Projection :=
  match fields p with
  | None =>
      {| proj_params := p; proj_fields := None;
         fieldsToBeRemoveInResponse := [];
         removePaginatedFieldInResponse := false |}
  | Some f =>
      let excluded := is_zero (get_prop f "_id") in
      let removed := if excluded then ["_id"] else [] in
      let f1 := extend f [("_id", VNum 1)] in
      if negb (truthy (get_prop f1 (params_paginatedField p))) then
        let f2 := set_prop f1 (params_paginatedField p) (VNum 1) in
        {| proj_params := set_fields p f2; proj_fields := Some f2;
           fieldsToBeRemoveInResponse := removed ++ [params_paginatedField p];
           removePaginatedFieldInResponse := true |}
      else
        {| proj_params := set_fields p f1; proj_fields := Some f1;
           fieldsToBeRemoveInResponse := removed;
           removePaginatedFieldInResponse := excluded |}
  end.

(** ** paginate, lines 74-136: direction, range filter, sort *)

(** Line 74, as the boolean the two conditionals of lines 75 and 125
    test. *)
Definition sortAsc (p : Params) : bool :=
  (negb (flag (sortAscending p)) && truthy (previous p))
  || (flag (sortAscending p) && negb (truthy (previous p))).

Definition comparisonOp (p : Params) : string :=
  if sortAsc p then "$gt" else "$lt".

(** The object pushed on [queries] for the cursor [c] (lines 79-98 and
    102-121 are the same text on [params.next] and [params.previous]). *)
Definition range_query (p : Params) (c : value) : value :=
  if shouldSecondarySortOnId p then
    VObj [("$or", VArr [
      VObj [(params_paginatedField p, VObj [(comparisonOp p, js_index c 0)])];
      VObj [(params_paginatedField p, VObj [("$eq", js_index c 0)]);
            ("_id", VObj [(comparisonOp p, js_index c 1)])]])]
  else
    VObj [(params_paginatedField p, VObj [(comparisonOp p, c)])].

(** Lines 39 and 77-123. *)
Definition queries (p : Params) : list value :=
  if truthy (next p) then [params_query p; range_query p (next p)]
  else if truthy (previous p) then [params_query p; range_query p (previous p)]
  else [params_query p].

Definition sortDir (p : Params) : Z := if sortAsc p then 1 else -1.

Definition sort (p : Params) : obj :=
  if shouldSecondarySortOnId p then
    [(params_paginatedField p, VNum (sortDir p)); ("_id", VNum (sortDir p))]
  else
    [(params_paginatedField p, VNum (sortDir p))].

(** Lines 139-142. *)
Definition find_query (p : Params) (fields_var : option obj) : Query :=
  {| q_filter := VObj [("$and", VArr (queries p))];
     q_projection := fields_var;
     q_sort := sort p;
     q_limit := params_limit p + 1;
     q_lean := true |}.

(** ** paginate, lines 143-185: assembling the page *)

Module Response.

Record t : Type := {
  results : list obj;
  previous : option string;
  hasPrevious : bool;
  next : option string;
  hasNext : bool
}.

End Response.

(** Line 144. *)
Definition hasMore (p : Params) (rows : list obj) : bool :=
  Z.of_nat (List.length rows) >? params_limit p.

(** Line 146: [results.pop()] when the extra document came back. *)
Definition peeled (p : Params) (rows : list obj) : list obj :=
  if hasMore p rows then removelast rows else rows.

(** Line 152. *)
Definition ordered (p : Params) (rows : list obj) : list obj :=
  if truthy (previous p) then rev (peeled p rows) else peeled p rows.

(** [results[0]] and [results[results.length - 1]]. *)
Definition first_doc (rows : list obj) : option obj := nth_error rows 0.

Definition last_doc (rows : list obj) : option obj :=
  nth_error rows (List.length rows - 1).

(** The value a cursor token encodes for a document (lines 163-167 and
    171-175). *)
Definition cursor_value (p : Params) (doc : obj) : value :=
  if shouldSecondarySortOnId p then
    VArr [objectPath_get doc (params_paginatedField p); get_prop doc "_id"]
  else
    objectPath_get doc (params_paginatedField p).

Definition assemble (c : Codec) (p : Params) (pr : Projection)
    (rows : list obj) : Response.t :=
  let results := ordered p rows in
  {| Response.results :=
       if removePaginatedFieldInResponse pr
       then map (fun result => omit result (fieldsToBeRemoveInResponse pr)) results
       else results;
     Response.previous :=
       option_map (fun doc => encode c (cursor_value p doc)) (first_doc results);
     Response.hasPrevious :=
       truthy (next p) || (truthy (previous p) && hasMore p rows);
     Response.next :=
       option_map (fun doc => encode c (cursor_value p doc)) (last_doc results);
     Response.hasNext := truthy (previous p) || hasMore p rows |}.

(** ** paginate *)

(** How a call ends: [decode] threw out of [paginate], or the returned
    promise was fulfilled with a page, or it was rejected by the store. *)
Inductive Outcome : Type :=
| Thrown
| Resolved (page : Response.t)
| Rejected (reason : string).

(** What a call leaves behind: the caller's [params] object as it is
    after the call, the queries the model received, and the outcome. *)
Record Run : Type := {
  run_params : Params;
  run_calls : list Query;
  run_outcome : Outcome
}.

(** Lines 30 and 31; [inr] carries the object as it is when [decode]
    throws. *)
Definition decode_cursors (c : Codec) (p : Params) : Params + Params :=
  match (if truthy (previous p) then decode_token c (previous p)
         else Some (previous p)) with
  | None => inr p
  | Some v =>
      let p1 := set_previous p v in
      match (if truthy (next p1) then decode_token c (next p1)
             else Some (next p1)) with
      | None => inr p1
      | Some w => inl (set_next p1 w)
      end
  end.

(** The params the query is built from (lines 30-72). *)
Definition prepare (cfg : Config) (p : Params) : Projection :=
  projection (clamp cfg (defaults cfg p)).

Definition paginate (cfg : Config) (c : Codec) (this : Model)
    (params : Params) : Run :=
  match decode_cursors c params with
  | inr p => {| run_params := p; run_calls := []; run_outcome := Thrown |}
  | inl p0 =>
      let pr := prepare cfg p0 in
      let p := proj_params pr in
      let q := find_query p (proj_fields pr) in
      {| run_params := p;
         run_calls := [q];
         run_outcome :=
           match this q with
           | Rows rows => Resolved (assemble c p pr rows)
           | Failure reason => Rejected reason
           end |}
  end.

(** ** A model of the store

    The Mongoose model is outside the repository.  [mongo coll] is a
    model of one over the collection [coll] for the fragment of MongoDB
    that [paginate] relies on: [$and], [$or], [$gt], [$lt], [$eq] and
    equality on scalars in filters, numbers and dates in comparisons,
    inclusion projections on top-level fields, multi-key sorts and
    limits. *)

(** Numbers compare with numbers and dates with dates; other values are
    not ordered by the model. *)
Definition scalar_compare (a b : value) : option comparison :=
  match a, b with
  | VNum x, VNum y => Some (x ?= y)
  | VDate x, VDate y => Some (x ?= y)
  | _, _ => None
  end.

Definition scalar_eqb (a b : value) : bool :=
  match a, b with
  | VNull, VNull => true
  | VBool x, VBool y => Bool.eqb x y
  | VNum x, VNum y => x =? y
  | VStr x, VStr y => (x =? y)%string
  | VDate x, VDate y => x =? y
  | _, _ => false
  end.

(** One step into a stored document: a field of an embedded document or
    an element of an array. *)
Definition embedded (v : value) (k : string) : value :=
  match v with
  | VObj props => get_prop props k
  | VArr items => match array_index k with
                  | Some i => nth i items VUndef
                  | None => VUndef
                  end
  | _ => VUndef
  end.

Fixpoint doc_path (v : value) (path : list string) : value :=
  match path with
  | [] => v
  | k :: rest =>
      match embedded v k with
      | VUndef => VUndef
      | w => doc_path w rest
      end
  end.

(** The field a filter, a sort or a projection names, in dot notation. *)
Definition field_of (doc : obj) (k : string) : value :=
  doc_path (VObj doc) (split_dot k).

(** [{field: cond}]: an operator document or a scalar to equal. *)
Definition condition (v : value) (cond : value) : bool :=
  match cond with
  | VObj [(op, arg)] =>
      if (op =? "$gt")%string then
        match scalar_compare v arg with Some Gt => true | _ => false end
      else if (op =? "$lt")%string then
        match scalar_compare v arg with Some Lt => true | _ => false end
      else if (op =? "$eq")%string then scalar_eqb v arg
      else false
  | VObj _ | VArr _ | VUndef => false
  | _ => scalar_eqb v cond
  end.

Fixpoint matches (filter : value) (doc : obj) {struct filter} : bool :=
  match filter with
  | VObj props =>
      forallb (fun kv =>
        match kv with
        | (k, v) =>
            if (k =? "$and")%string then
              match v with
              | VArr qs => forallb (fun q => matches q doc) qs
              | _ => false
              end
            else if (k =? "$or")%string then
              match v with
              | VArr qs => existsb (fun q => matches q doc) qs
              | _ => false
              end
            else condition (field_of doc k) v
        end) props
  | _ => false
  end.

(** An inclusion projection keeps the top-level fields it flags. *)
Definition project (projection : option obj) (doc : obj) : obj :=
  match projection with
  | None => doc
  | Some f => filter (fun kv => truthy (get_prop f (fst kv))) doc
  end.

(** The order a sort specification puts two documents in. *)
Fixpoint doc_compare (spec : obj) (a b : obj) : comparison :=
  match spec with
  | [] => Eq
  | (k, dir) :: rest =>
      let descending := match dir with VNum d => d <? 0 | _ => false end in
      match scalar_compare (field_of a k) (field_of b k) with
      | Some Lt => if descending then Gt else Lt
      | Some Gt => if descending then Lt else Gt
      | _ => doc_compare rest a b
      end
  end.

Definition doc_leb (spec : obj) (a b : obj) : bool :=
  match doc_compare spec a b with
  | Gt => false
  | _ => true
  end.

(** The store sorts stably; insertion sort is a stable sort. *)
Fixpoint insert_by {A : Type} (leb : A -> A -> bool) (x : A) (sorted : list A)
    : list A :=
  match sorted with
  | [] => [x]
  | y :: rest =>
      if leb x y then x :: y :: rest else y :: insert_by leb x rest
  end.

Fixpoint sort_by {A : Type} (leb : A -> A -> bool) (l : list A) : list A :=
  match l with
  | [] => []
  | x :: rest => insert_by leb x (sort_by leb rest)
  end.

Definition sort_docs (spec : obj) (docs : list obj) : list obj :=
  sort_by (doc_leb spec) docs.

(** [limit(0)] is no limit; a negative limit counts like its absolute
    value. *)
Definition take (n : Z) (docs : list obj) : list obj :=
  if n =? 0 then docs else firstn (Z.abs_nat n) docs.

Definition mongo (coll : list obj) : Model :=
  fun q =>
    Rows (map (project (q_projection q))
              (take (q_limit q)
                    (sort_docs (q_sort q)
                               (filter (matches (q_filter q)) coll)))).

(** ** A concrete codec and configuration *)

(** Decimal numerals of integers, for the tokens of [demo_codec]. *)
Definition string_of_Z (n : Z) : string :=
  NilZero.string_of_int (Z.to_int n).

Definition Z_of_string (s : string) : option Z :=
  match NilZero.int_of_string s with
  | Some i => if (string_of_Z (Z.of_int i) =? s)%string then Some (Z.of_int i) else None
  | None => None
  end.

(** A scalar is written as a tag and its text. *)
Definition encode_scalar (v : value) : string :=
  match v with
  | VNum n => "n" ++ string_of_Z n
  | VDate ms => "d" ++ string_of_Z ms
  | VStr s => "s" ++ s
  | VBool true => "t"
  | VBool false => "f"
  | VNull => "z"
  | _ => "u"
  end.

Definition decode_scalar (s : string) : option value :=
  match s with
  | String "n" rest => option_map VNum (Z_of_string rest)
  | String "d" rest => option_map VDate (Z_of_string rest)
  | String "s" rest => Some (VStr rest)
  | "t" => Some (VBool true)
  | "f" => Some (VBool false)
  | "z" => Some VNull
  | _ => None
  end.

Fixpoint split_comma_from (acc : string) (s : string) : option (string * string) :=
  match s with
  | EmptyString => None
  | String c rest =>
      if Ascii.eqb c ","%char then Some (acc, rest)
      else split_comma_from (acc ++ String c EmptyString)%string rest
  end.

(** Modelled from the spec: the [encode] of utils/bsonUrlEncoding.js,
    which is missing from the sources.  The spec gives it a single value
    or a pair and gets an opaque string; here a pair is an opening
    bracket and its two scalars with a comma between them. *)
Definition demo_encode (v : value) : string :=
  match v with
  | VArr [a; b] => "[" ++ encode_scalar a ++ "," ++ encode_scalar b
  | _ => encode_scalar v
  end.

(** Modelled from the spec: the [decode] of utils/bsonUrlEncoding.js,
    which is missing from the sources.  The spec asks that it give back
    what [encode] was given, with its type (number, date, string), and
    that it fail on what [encode] cannot produce. *)
Definition demo_decode (s : string) : option value :=
  match s with
  | String "[" rest =>
      match split_comma_from "" rest with
      | Some (a, b) =>
          match decode_scalar a, decode_scalar b with
          | Some x, Some y => Some (VArr [x; y])
          | _, _ => None
          end
      | None => None
      end
  | _ => decode_scalar s
  end.

(** Modelled from the spec: a codec to run [paginate] with on concrete
    inputs, in place of the missing utils/bsonUrlEncoding.js. *)
Definition demo_codec : Codec :=
  {| encode := demo_encode; decode := demo_decode |}.

(** Modelled from the spec: config.js is missing from the sources; the
    spec names its constants without their values.  [demo_config] gives
    them the values of the library this module ports. *)
Definition demo_config : Config :=
  {| DEFAULT_LIMIT := 50; MAX_LIMIT := 300 |}.

(** The params object of a call [paginate({})]. *)
Definition no_params : Params :=
  {| query := None; limit := None; fields := None; paginatedField := None;
     next := VUndef; previous := VUndef; sortAscending := None |}.

(** The limit a call pages by: the supplied or default limit, clamped. *)
Definition effective_limit (cfg : Config) (params : Params) : Z :=
  params_limit (clamp cfg (defaults cfg params)).

(** The field a call pages by: the supplied one, or ['_id']. *)
Definition effective_field (params : Params) : string :=
  match paginatedField params with Some f => f | None => "_id" end.

(** The query of the caller, or [{}]. *)
Definition effective_query (params : Params) : value :=
  match query params with Some q => q | None => VObj [] end.

(** The test [paginate] makes of a cursor ([if (params.next)],
    [!params.previous], ...): it is there when its value is truthy. *)
Definition supplied (cursor : value) : bool := truthy cursor.

(** The cursor the range filter compares with (lines 77 and 100). *)
Definition range_cursor (p : Params) : value :=
  if supplied (next p) then next p else previous p.

(** Lines 180-182 on the whole result array. *)
Definition strip (pr : Projection) (docs : list obj) : list obj :=
  if removePaginatedFieldInResponse pr
  then map (fun result => omit result (fieldsToBeRemoveInResponse pr)) docs
  else docs.

(** Lines 30 and 31 on a cursor: a truthy token is replaced by what it
    decodes to, anything else stays. *)
Definition decoded (c : Codec) (token v : value) : Prop :=
  if truthy token then decode_token c token = Some v else v = token.

(** ** Sorted lists *)

(** [l] is sorted by the strict order [before]. *)
Definition sorted_by {A : Type} (before : A -> A -> bool) (l : list A) : Prop :=
  StronglySorted (fun a b => before a b = true) l.

(** [P] holds of everything that comes after something it holds of. *)
Definition upward {A : Type} (before : A -> A -> bool) (P : A -> bool) : Prop :=
  forall x y, P x = true -> before x y = true -> P y = true.

(** ** The order of a collection

    What the symmetry of paging is stated over: documents whose paginated
    field and [_id] are numbers or dates, told apart by the pair of the
    two. *)

Definition same_kind (a b : value) : bool :=
  match a, b with
  | VNum _, VNum _ => true
  | VDate _, VDate _ => true
  | _, _ => false
  end.

Definition rank (v : value) : Z :=
  match v with
  | VNum n => n
  | VDate ms => ms
  | _ => 0
  end.

Definition sort_key (pf : string) (doc : obj) : Z * Z :=
  (rank (get_prop doc pf), rank (get_prop doc "_id")).

Definition key_eqb (a b : Z * Z) : bool :=
  (fst a =? fst b) && (snd a =? snd b).

Definition lex_lt (a b : Z * Z) : bool :=
  (fst a <? fst b) || ((fst a =? fst b) && (snd a <? snd b)).

(** [a] comes before [b] in a scan of direction [asc]. *)
Definition scan_before (pf : string) (asc : bool) (a b : obj) : bool :=
  if asc then lex_lt (sort_key pf a) (sort_key pf b)
  else lex_lt (sort_key pf b) (sort_key pf a).

Fixpoint distinct_keys (keys : list (Z * Z)) : bool :=
  match keys with
  | [] => true
  | k :: rest => negb (existsb (key_eqb k) rest) && distinct_keys rest
  end.

(** The paginated field and [_id] have one kind each throughout the
    collection, and no two documents have the same pair of them. *)
Definition well_keyed (pf : string) (coll : list obj) : bool :=
  forallb (fun a =>
    forallb (fun b =>
      same_kind (get_prop a pf) (get_prop b pf)
      && same_kind (get_prop a "_id") (get_prop b "_id")) coll) coll
  && distinct_keys (map (sort_key pf) coll).

(** A top-level field name: no dot in it, and not an operator of the
    filter language. *)
Definition plain_field (pf : string) : bool :=
  match split_dot pf with
  | [k] => (k =? pf)%string
  | _ => false
  end
  && negb (pf =? "")%string && negb (pf =? "$and")%string
  && negb (pf =? "$or")%string.

(** The cursor of a document: what lines 163-167 encode. *)
Definition cursor_of (pf : string) (doc : obj) : value :=
  if (pf =? "_id")%string then get_prop doc "_id"
  else VArr [get_prop doc pf; get_prop doc "_id"].

(** The codec gives back the cursors of the collection, from tokens that
    are not empty. *)
Definition round_trips (c : Codec) (pf : string) (coll : list obj) : Prop :=
  Forall (fun doc =>
            encode c (cursor_of pf doc) <> "" /\
            decode c (encode c (cursor_of pf doc)) = Some (cursor_of pf doc))
         coll.

(** The sort specification of lines 125-136 for a field and a
    direction. *)
Definition sort_spec (pf : string) (asc : bool) : obj :=
  if (pf =? "_id")%string then [(pf, VNum (if asc then 1 else -1))]
  else [(pf, VNum (if asc then 1 else -1)); ("_id", VNum (if asc then 1 else -1))].

(** Where a scan starts: at the first document, or after the document
    [d0] of the cursor. *)
Definition scan_pred (pf : string) (asc : bool) (start : option obj)
    (d : obj) : bool :=
  match start with
  | None => true
  | Some d0 => scan_before pf asc d0 d
  end.

Definition starts_at (coll : list obj) (p : Params) (start : option obj) : Prop :=
  match start with
  | None => supplied (next p) = false /\ supplied (previous p) = false
  | Some d0 =>
      (supplied (next p) = true \/ supplied (previous p) = true) /\
      range_cursor p = cursor_of (params_paginatedField p) d0 /\
      In d0 coll
  end.

(** The documents of [coll] that the query of [p] selects, in the order
    it sorts them, before the limit. *)
Definition scanned (coll : list obj) (p : Params) (start : option obj)
    : list obj :=
  filter (scan_pred (params_paginatedField p) (sortAsc p) start)
         (sort_docs (sort p) (filter (matches (params_query p)) coll)).

(** The scan of the documents of [coll] that match [q0], by [pf] in the
    direction [asc], from [start]. *)
Definition scan (coll : list obj) (q0 : value) (pf : string) (asc : bool)
    (start : option obj) : list obj :=
  filter (scan_pred pf asc start)
         (sort_docs (sort_spec pf asc) (filter (matches q0) coll)).

(** A cursor property of a call: absent, or the token [paginate] hands
    out for a document of the collection. *)
Definition handed_out (c : Codec) (pf : string) (coll : list obj)
    (doc : option obj) (token : value) : Prop :=
  match doc with
  | None => supplied token = false
  | Some d => In d coll /\ token = VStr (encode c (cursor_of pf d))
  end.

(** ** Sample data *)

Definition post (i : Z) : obj :=
  [("_id", VNum (100 + i)); ("title", VStr "Post"); ("date", VDate (1000 + i));
   ("body", VStr "Body")].

Definition posts : list obj := map post [3; 1; 2; 5; 4; 7; 6; 9; 8; 10; 12; 11].

(** [{limit: 5, fields: {date: 1, title: 1, _id: 0}, paginatedField: 'date',
    sortAscending: true}]. *)
Definition by_date : Params :=
  {| query := None; limit := Some 5;
     fields := Some [("date", VNum 1); ("title", VNum 1); ("_id", VNum 0)];
     paginatedField := Some "date"; next := VUndef; previous := VUndef;
     sortAscending := Some true |}.


(** [{limit: 2}]. *)
Definition limit_two : Params := set_limit no_params 2.

(** [{limit: 5, fields: {title: 1}, paginatedField: 'date',
    sortAscending: true}]: a projection that leaves [_id] out without
    excluding it. *)
Definition titles_by_date : Params :=
  {| query := None; limit := Some 5; fields := Some [("title", VNum 1)];
     paginatedField := Some "date"; next := VUndef; previous := VUndef;
     sortAscending := Some true |}.

(** Documents with an embedded [author], and a model that replies with
    the rows it is given whatever the query. *)
Definition authored_post (i : Z) : obj :=
  [("_id", VNum i); ("title", VStr "Post");
   ("author", VObj [("name", VStr "Ann")])].

Definition authored : list obj := [authored_post 1; authored_post 2].

Definition replying (rows : list obj) : Model := fun _ => Rows rows.

(** [{limit: 5, fields: {title: 1}, paginatedField: 'author.name',
    sortAscending: true}]. *)
Definition titles_by_author : Params :=
  {| query := None; limit := Some 5; fields := Some [("title", VNum 1)];
     paginatedField := Some "author.name"; next := VUndef; previous := VUndef;
     sortAscending := Some true |}.

(** [{query: {}, limit: 5, fields: {_id: 1}, paginatedField: '_id',
    sortAscending: true}]: nothing for [paginate] to fill in. *)
Definition ids_only : Params :=
  {| query := Some (VObj []); limit := Some 5; fields := Some [("_id", VNum 1)];
     paginatedField := Some "_id"; next := VUndef; previous := VUndef;
     sortAscending := Some true |}.

(** [by_date] with the [next] token of its first page, and with the
    [previous] token of its second page as well. *)
Definition by_date_next : Params := set_next by_date (VStr "[d1005,n105").

Definition by_date_both : Params :=
  set_previous by_date_next (VStr "[d1006,n106").

(** A collection with numeric ids of the application's own, one of them
    0, and [{limit: 2, sortAscending: true}]. *)
Definition counter (i : Z) : obj := [("_id", VNum i); ("count", VNum (10 * i))].

Definition counters : list obj := map counter [-4; -3; -2; -1; 0; 1].

Definition two_by_id : Params :=
  {| query := None; limit := Some 2; fields := None; paginatedField := None;
     next := VUndef; previous := VUndef; sortAscending := Some true |}.
(** * Properties *)

(** ** The params a query is built from *)

Lemma set_prop_same (o : obj) (k : string) (v : value) :
  get_prop (set_prop o k v) k = v.
Proof.
  induction o as [| [k' v'] o IH]; simpl.
  - now rewrite String.eqb_refl.
  - destruct (k' =? k)%string eqn:E; simpl; rewrite E; auto.
Qed.

Lemma set_prop_other (o : obj) (k k' : string) (v : value) :
  k <> k' -> get_prop (set_prop o k v) k' = get_prop o k'.
Proof.
  intros Hk. induction o as [| [k0 v0] o IH]; simpl.
  - destruct (k =? k')%string eqn:E; auto.
    apply String.eqb_eq in E. contradiction.
  - destruct (k0 =? k)%string eqn:E; simpl.
    + apply String.eqb_eq in E. subst k0.
      destruct (k =? k')%string eqn:E'; auto.
      apply String.eqb_eq in E'. contradiction.
    + now rewrite IH.
Qed.

Lemma decode_cursors_frame (c : Codec) (params p : Params) :
  decode_cursors c params = inl p ->
  query p = query params /\ limit p = limit params /\
  fields p = fields params /\ paginatedField p = paginatedField params /\
  sortAscending p = sortAscending params.
Proof.
  unfold decode_cursors. intros H.
  destruct (if truthy (previous params) then _ else _); [| discriminate].
  simpl in H.
  destruct (if truthy (next params) then _ else _); [| discriminate].
  inversion H. subst p. simpl. tauto.
Qed.

Lemma decode_cursors_inl (c : Codec) (params p : Params) :
  decode_cursors c params = inl p ->
  decoded c (previous params) (previous p) /\ decoded c (next params) (next p).
Proof.
  unfold decode_cursors, decoded. intros H.
  destruct (truthy (previous params)).
  - destruct (decode_token c (previous params)) eqn:E1; [| discriminate].
    simpl in H. destruct (truthy (next params)).
    + destruct (decode_token c (next params)) eqn:E2; [| discriminate].
      inversion H. subst p. simpl. auto.
    + inversion H. subst p. simpl. auto.
  - simpl in H. destruct (truthy (next params)).
    + destruct (decode_token c (next params)) eqn:E2; [| discriminate].
      inversion H. subst p. simpl. auto.
    + inversion H. subst p. simpl. auto.
Qed.

Lemma prepare_frame (cfg : Config) (p : Params) :
  let P := proj_params (prepare cfg p) in
  next P = next p /\ previous P = previous p /\
  sortAscending P = sortAscending p /\
  params_limit P = effective_limit cfg p /\
  params_query P = match query p with Some q => q | None => VObj [] end /\
  params_paginatedField P =
    match paginatedField p with Some f => f | None => "_id" end.
Proof.
  unfold prepare, effective_limit, projection, clamp, defaults,
    params_limit, params_query, params_paginatedField.
  destruct p as [q l f pf n pv sa]. simpl.
  destruct l as [l |], f as [f |], q as [q |], pf as [pf |]; simpl;
    repeat match goal with
           | |- context [if ?b then _ else _] => destruct b; simpl
           end; repeat split; reflexivity.
Qed.

(** A call that gets past lines 30-31 issues exactly one query, built
    from the prepared params, and resolves or rejects as the store does. *)
Lemma paginate_inl (cfg : Config) (c : Codec) (this : Model) (params p : Params) :
  decode_cursors c params = inl p ->
  paginate cfg c this params =
  {| run_params := proj_params (prepare cfg p);
     run_calls := [find_query (proj_params (prepare cfg p))
                              (proj_fields (prepare cfg p))];
     run_outcome :=
       match this (find_query (proj_params (prepare cfg p))
                              (proj_fields (prepare cfg p))) with
       | Rows rows =>
           Resolved (assemble c (proj_params (prepare cfg p)) (prepare cfg p) rows)
       | Failure reason => Rejected reason
       end |}.
Proof.
  intros H. unfold paginate. now rewrite H.
Qed.

Lemma paginate_inr (cfg : Config) (c : Codec) (this : Model) (params p : Params) :
  decode_cursors c params = inr p ->
  paginate cfg c this params =
  {| run_params := p; run_calls := []; run_outcome := Thrown |}.
Proof.
  intros H. unfold paginate. now rewrite H.
Qed.

Lemma not_thrown_inl (cfg : Config) (c : Codec) (this : Model) (params : Params) :
  run_outcome (paginate cfg c this params) <> Thrown ->
  exists p, decode_cursors c params = inl p.
Proof.
  intros H. destruct (decode_cursors c params) as [p | p] eqn:E.
  - now exists p.
  - rewrite (paginate_inr cfg c this params p E) in H. now elim H.
Qed.

Lemma resolved_inv (cfg : Config) (c : Codec) (this : Model)
    (params : Params) (page : Response.t) :
  run_outcome (paginate cfg c this params) = Resolved page ->
  exists p rows,
    decode_cursors c params = inl p /\
    this (find_query (proj_params (prepare cfg p)) (proj_fields (prepare cfg p)))
      = Rows rows /\
    page = assemble c (proj_params (prepare cfg p)) (prepare cfg p) rows.
Proof.
  intros H. destruct (decode_cursors c params) as [p | p] eqn:E.
  - rewrite (paginate_inl cfg c this params p E) in H. simpl in H.
    destruct (this _) as [rows | reason] eqn:R; [| discriminate].
    exists p, rows. inversion H. auto.
  - rewrite (paginate_inr cfg c this params p E) in H. discriminate.
Qed.

Lemma assemble_results (c : Codec) (p : Params) (pr : Projection) (rows : list obj) :
  Response.results (assemble c p pr rows) = strip pr (ordered p rows).
Proof. reflexivity. Qed.

Lemma strip_length (pr : Projection) (docs : list obj) :
  List.length (strip pr docs) = List.length docs.
Proof.
  unfold strip. destruct (removePaginatedFieldInResponse pr); auto.
  apply length_map.
Qed.

Lemma removelast_length (A : Type) (l : list A) :
  List.length (removelast l) = (List.length l - 1)%nat.
Proof.
  induction l as [| a [| b l] IH]; simpl in *; auto.
  rewrite IH. lia.
Qed.

Lemma ordered_length (p : Params) (rows : list obj) :
  List.length (ordered p rows) = List.length (peeled p rows).
Proof.
  unfold ordered. destruct (truthy (previous p)); auto. apply length_rev.
Qed.

Lemma hasMore_iff (p : Params) (rows : list obj) :
  hasMore p rows = true <-> params_limit p < Z.of_nat (List.length rows).
Proof.
  unfold hasMore. rewrite Z.gtb_ltb. apply Z.ltb_lt.
Qed.

(** Lines 35, 41 and 42 in one expression. *)
Lemma effective_limit_eq (cfg : Config) (p : Params) :
  effective_limit cfg p =
  let l0 := match limit p with Some l => l | None => DEFAULT_LIMIT cfg end in
  let l1 := if l0 <? 1 then 1 else l0 in
  if l1 >? MAX_LIMIT cfg then MAX_LIMIT cfg else l1.
Proof.
  unfold effective_limit, clamp, defaults, params_limit. simpl.
  destruct (_ <? 1); simpl; destruct (_ >? MAX_LIMIT cfg); reflexivity.
Qed.

Lemma effective_limit_bounds (cfg : Config) (p : Params) :
  1 <= MAX_LIMIT cfg -> 1 <= effective_limit cfg p <= MAX_LIMIT cfg.
Proof.
  intros Hmax. rewrite effective_limit_eq. simpl.
  destruct (_ <? 1) eqn:E1; destruct (_ >? MAX_LIMIT cfg) eqn:E2;
    rewrite ?Z.gtb_ltb in E2;
    try apply Z.ltb_lt in E1; try apply Z.ltb_ge in E1;
    try apply Z.ltb_lt in E2; try apply Z.ltb_ge in E2; lia.
Qed.

Lemma effective_limit_decode (cfg : Config) (c : Codec) (params p : Params) :
  decode_cursors c params = inl p ->
  effective_limit cfg p = effective_limit cfg params.
Proof.
  intros H. apply decode_cursors_frame in H as (_ & Hl & _).
  rewrite !effective_limit_eq. now rewrite Hl.
Qed.

(** ** Page size *)

(** C1. A call that resolves has sent exactly one query, asking for the
    clamped limit plus one documents; [hasMore] holds exactly when more
    than the limit came back; the page is the reply without its last
    document in that case and the whole reply otherwise (reversed when
    [previous] is there, stripped of the added fields); and when the store
    honoured the limit of the query the page holds at most the clamped
    limit documents.  The configured ceiling is at least 1, so that the
    clamped limit is. *)
Theorem page_holds_at_most_limit_records :
  forall (cfg : Config) (c : Codec) (this : Model) (params : Params)
         (page : Response.t),
    1 <= MAX_LIMIT cfg ->
    run_outcome (paginate cfg c this params) = Resolved page ->
    let P := run_params (paginate cfg c this params) in
    let L := effective_limit cfg params in
    1 <= L <= MAX_LIMIT cfg /\
    exists q rows pr,
      run_calls (paginate cfg c this params) = [q] /\
      this q = Rows rows /\
      q_limit q = L + 1 /\
      (hasMore P rows = true <-> L < Z.of_nat (List.length rows)) /\
      Response.results page =
        strip pr (let kept := if hasMore P rows then removelast rows else rows in
                  if supplied (previous P) then rev kept else kept) /\
      List.length (Response.results page) =
        (if hasMore P rows then List.length rows - 1 else List.length rows)%nat /\
      (Z.of_nat (List.length rows) <= q_limit q ->
       Z.of_nat (List.length (Response.results page)) <= L).
Proof.
  intros cfg c this params page Hmax H P L.
  assert (HL1 : 1 <= L <= MAX_LIMIT cfg)
    by now apply effective_limit_bounds.
  split; [exact HL1 |].
  destruct (resolved_inv _ _ _ _ _ H) as (p & rows & Hd & Hrows & Hpage).
  pose proof (effective_limit_decode cfg c params p Hd) as HL.
  pose proof (prepare_frame cfg p) as (_ & _ & _ & Hlim & _).
  subst P. rewrite (paginate_inl cfg c this params p Hd). simpl.
  set (Q := proj_params (prepare cfg p)) in *.
  assert (HQ : params_limit Q = L) by (unfold L; congruence).
  exists (find_query Q (proj_fields (prepare cfg p))), rows, (prepare cfg p).
  assert (Hlen : List.length (Response.results page) =
                 (if hasMore Q rows then List.length rows - 1
                  else List.length rows)%nat).
  { subst page. rewrite assemble_results, strip_length, ordered_length.
    unfold peeled. destruct (hasMore Q rows); auto. apply removelast_length. }
  repeat split; auto.
  - simpl. now rewrite HQ.
  - rewrite <- HQ. apply hasMore_iff.
  - rewrite <- HQ. apply hasMore_iff.
  - subst page. reflexivity.
  - simpl. rewrite Hlen, HQ. intros Hle.
    destruct (hasMore Q rows) eqn:E.
    + apply hasMore_iff in E. rewrite HQ in E. clearbody L. lia.
    + assert (~ params_limit Q < Z.of_nat (List.length rows)) as E'.
      { intros Hlt. apply hasMore_iff in Hlt. congruence. }
      rewrite HQ in E'. clearbody L. lia.
Qed.

Lemma page_holds_at_most_limit_records_witness :
  exists page,
    run_outcome (paginate demo_config demo_codec (mongo posts) by_date)
      = Resolved page /\
    List.length (Response.results page) = 5%nat.
Proof.
  eexists. split; [reflexivity |].
  destruct (page_holds_at_most_limit_records demo_config demo_codec
              (mongo posts) by_date _ ltac:(simpl; lia) eq_refl)
    as (_ & q & rows & pr & Hq & Hrows & _ & _ & _ & Hlen & _).
  inversion Hq. subst q. vm_compute in Hrows. inversion Hrows. subst rows.
  exact Hlen.
Defined.

(** ** Direction, operator and sort *)

Lemma comparisonOp_gt (p : Params) : comparisonOp p = "$gt" <-> sortAsc p = true.
Proof.
  unfold comparisonOp. destruct (sortAsc p); split; auto; discriminate.
Qed.

Lemma comparisonOp_lt (p : Params) : comparisonOp p = "$lt" <-> sortAsc p = false.
Proof.
  unfold comparisonOp. destruct (sortAsc p); split; auto; discriminate.
Qed.

Lemma sort_eq (p : Params) :
  sort p =
  if (params_paginatedField p =? "_id")%string
  then [(params_paginatedField p, VNum (if sortAsc p then 1 else -1))]
  else [(params_paginatedField p, VNum (if sortAsc p then 1 else -1));
        ("_id", VNum (if sortAsc p then 1 else -1))].
Proof.
  unfold sort, shouldSecondarySortOnId, sortDir.
  now destruct (params_paginatedField p =? "_id")%string.
Qed.

(** Lines 74-75 and 125-136, with a cursor counted as there when its
    decoded value is truthy, which is the test the code makes.  In a call
    that gets past the decoding of its cursors, with [P] the params after
    decoding: the scan is ascending exactly when [sortAscending] is
    truthy and [previous] is not there, or [sortAscending] is falsy and
    [previous] is there; the operator is
    [$gt] exactly when the scan is ascending and [$lt] otherwise; and the
    one query sent sorts [paginatedField] by 1 when ascending and -1
    otherwise, with [_id] in the same direction exactly when
    [paginatedField] is not ['_id']. *)
Theorem direction_operator_and_sort :
  forall (cfg : Config) (c : Codec) (this : Model) (params : Params),
    run_outcome (paginate cfg c this params) <> Thrown ->
    let P := run_params (paginate cfg c this params) in
    let pf := params_paginatedField P in
    let dir := if sortAsc P then 1 else -1 in
    decoded c (previous params) (previous P) /\
    (sortAsc P = true <->
       (flag (sortAscending params) = true /\ supplied (previous P) = false) \/
       (flag (sortAscending params) = false /\ supplied (previous P) = true)) /\
    (comparisonOp P = "$gt" <-> sortAsc P = true) /\
    (comparisonOp P = "$lt" <-> sortAsc P = false) /\
    exists q,
      run_calls (paginate cfg c this params) = [q] /\
      q_sort q =
        if (pf =? "_id")%string then [(pf, VNum dir)]
        else [(pf, VNum dir); ("_id", VNum dir)].
Proof.
  intros cfg c this params H.
  destruct (not_thrown_inl _ _ _ _ H) as (p & Hd).
  rewrite (paginate_inl cfg c this params p Hd). simpl.
  pose proof (prepare_frame cfg p) as (_ & Hprev & Hsa & _).
  pose proof (decode_cursors_frame c params p Hd) as (_ & _ & _ & _ & Hsa').
  pose proof (decode_cursors_inl c params p Hd) as (Hdp & _).
  set (P := proj_params (prepare cfg p)) in *.
  split; [now rewrite Hprev |].
  split.
  - unfold sortAsc, supplied. rewrite Hsa, Hsa'.
    destruct (flag (sortAscending params)), (truthy (previous P)); simpl;
      intuition congruence.
  - split; [apply comparisonOp_gt |]. split; [apply comparisonOp_lt |].
    eexists. split; [reflexivity |]. simpl. apply sort_eq.
Qed.

Lemma direction_operator_and_sort_witness :
  sortAsc (run_params (paginate demo_config demo_codec (mongo posts)
                         (set_previous by_date (VStr "[d1006,n106")))) = false.
Proof.
  pose proof (direction_operator_and_sort demo_config demo_codec (mongo posts)
                (set_previous by_date (VStr "[d1006,n106"))
                ltac:(vm_compute; discriminate)) as (_ & _ & _ & Hlt & _).
  apply Hlt. reflexivity.
Defined.

(** ** The page booleans *)

(** Lines 144-149, with a cursor counted as there when its decoded value
    is truthy.  In a call that resolves, with [P] the params after
    decoding and [rows] the reply of the store: [hasPrevious] is true
    exactly when
    [next] is there, or [previous] is there and more than the limit
    documents came back; [hasNext] is true exactly when [previous] is
    there or more than the limit documents came back. *)
Theorem page_booleans :
  forall (cfg : Config) (c : Codec) (this : Model) (params : Params)
         (page : Response.t),
    run_outcome (paginate cfg c this params) = Resolved page ->
    let P := run_params (paginate cfg c this params) in
    decoded c (next params) (next P) /\
    decoded c (previous params) (previous P) /\
    exists q rows,
      run_calls (paginate cfg c this params) = [q] /\
      this q = Rows rows /\
      (hasMore P rows = true <->
         effective_limit cfg params < Z.of_nat (List.length rows)) /\
      (Response.hasPrevious page = true <->
         supplied (next P) = true \/
         (supplied (previous P) = true /\ hasMore P rows = true)) /\
      (Response.hasNext page = true <->
         supplied (previous P) = true \/ hasMore P rows = true).
Proof.
  intros cfg c this params page H.
  destruct (resolved_inv _ _ _ _ _ H) as (p & rows & Hd & Hrows & Hpage).
  pose proof (effective_limit_decode cfg c params p Hd) as HL.
  pose proof (prepare_frame cfg p) as (Hn & Hp & _ & Hlim & _).
  pose proof (decode_cursors_inl c params p Hd) as (Hdp & Hdn).
  rewrite (paginate_inl cfg c this params p Hd). simpl.
  set (Q := proj_params (prepare cfg p)) in *.
  rewrite Hn, Hp. repeat split; auto.
  exists (find_query Q (proj_fields (prepare cfg p))), rows.
  split; [reflexivity |]. split; [exact Hrows |].
  split; [rewrite <- HL, <- Hlim; apply hasMore_iff |].
  subst page. unfold supplied. simpl. rewrite Hn, Hp.
  destruct (truthy (next p)), (truthy (previous p)), (hasMore Q rows);
    simpl; intuition congruence.
Qed.

Lemma page_booleans_witness :
  exists page,
    run_outcome (paginate demo_config demo_codec (mongo posts)
                   (set_next by_date (VStr "[d1005,n105"))) = Resolved page /\
    Response.hasPrevious page = true.
Proof.
  eexists. split; [reflexivity |].
  destruct (page_booleans demo_config demo_codec (mongo posts)
              (set_next by_date (VStr "[d1005,n105")) _ eq_refl)
    as (_ & _ & q & rows & _ & _ & _ & Hp & _).
  apply Hp. left. reflexivity.
Defined.

(** ** The range filter *)

Lemma queries_supplied (p : Params) :
  supplied (next p) = true \/ supplied (previous p) = true ->
  queries p = [params_query p; range_query p (range_cursor p)].
Proof.
  unfold queries, range_cursor, supplied.
  destruct (truthy (next p)); auto.
  destruct (truthy (previous p)); auto.
  intros [H | H]; discriminate.
Qed.

Lemma queries_not_supplied (p : Params) :
  supplied (next p) = false -> supplied (previous p) = false ->
  queries p = [params_query p].
Proof.
  unfold queries, supplied. now intros -> ->.
Qed.

(** Lines 77-123 and 139, with a cursor counted as there when its
    decoded value is truthy.  In a call that gets past the decoding of
    its cursors and in which a cursor is there, the one query sent has
    the filter [{$and: [query, range]}] with [query] the caller's (or
    [{}]), where [range] is [{$or: [{pf: {op: cursor[0]}}, {pf: {$eq:
    cursor[0]}, _id: {op: cursor[1]}}]}] when [paginatedField] is not
    ['_id'] and [{pf: {op: cursor}}] when it is; [op] is [$gt] when
    [sortAscending] is truthy and [previous] is not there or
    [sortAscending] is falsy and [previous] is there, and [$lt]
    otherwise; [cursor] is [next] when that is there and [previous]
    otherwise. *)
Theorem range_filter_shape :
  forall (cfg : Config) (c : Codec) (this : Model) (params : Params),
    run_outcome (paginate cfg c this params) <> Thrown ->
    let P := run_params (paginate cfg c this params) in
    let pf := params_paginatedField P in
    let op := comparisonOp P in
    let cursor := if supplied (next P) then next P else previous P in
    supplied (next P) = true \/ supplied (previous P) = true ->
    pf = effective_field params /\
    op = (if xorb (flag (sortAscending params)) (supplied (previous P))
          then "$gt" else "$lt") /\
    exists q,
      run_calls (paginate cfg c this params) = [q] /\
      q_filter q =
        VObj [("$and",
               VArr [effective_query params;
                     if (pf =? "_id")%string
                     then VObj [(pf, VObj [(op, cursor)])]
                     else VObj [("$or", VArr [
                            VObj [(pf, VObj [(op, js_index cursor 0)])];
                            VObj [(pf, VObj [("$eq", js_index cursor 0)]);
                                  ("_id", VObj [(op, js_index cursor 1)])]])]])].
Proof.
  intros cfg c this params H.
  destruct (not_thrown_inl _ _ _ _ H) as (p & Hd).
  rewrite (paginate_inl cfg c this params p Hd). simpl.
  pose proof (prepare_frame cfg p) as (_ & _ & Hsa & _ & Hq & Hpf).
  pose proof (decode_cursors_frame c params p Hd) as (Hq' & _ & _ & Hpf' & Hsa').
  set (P := proj_params (prepare cfg p)) in *.
  intros Hsup. split; [now rewrite Hpf, Hpf' |].
  split.
  { unfold comparisonOp, sortAsc, supplied. rewrite Hsa, Hsa'.
    now destruct (flag (sortAscending params)), (truthy (previous P)). }
  eexists. split; [reflexivity |]. simpl.
  rewrite (queries_supplied P Hsup), Hq, Hq'.
  unfold range_query, range_cursor, shouldSecondarySortOnId.
  now destruct (params_paginatedField P =? "_id")%string.
Qed.

Lemma range_filter_shape_witness :
  exists q,
    run_calls (paginate demo_config demo_codec (mongo posts)
                 (set_next by_date (VStr "[d1005,n105"))) = [q] /\
    q_filter q =
      VObj [("$and",
             VArr [VObj [];
                   VObj [("$or", VArr [
                     VObj [("date", VObj [("$gt", VDate 1005)])];
                     VObj [("date", VObj [("$eq", VDate 1005)]);
                           ("_id", VObj [("$gt", VNum 105)])]])]])].
Proof.
  destruct (range_filter_shape demo_config demo_codec (mongo posts)
              (set_next by_date (VStr "[d1005,n105"))
              ltac:(vm_compute; discriminate)
              ltac:(left; reflexivity)) as (_ & _ & q & Hq & Hf).
  exists q. split; [exact Hq |]. exact Hf.
Defined.

(** ** Cursors that do not decode *)

(** C9. When a [next] or [previous] token that is there (a non-empty
    string) does not decode, [paginate] throws: no query reaches the
    store and no page is returned. *)
Theorem undecodable_cursor_throws :
  forall (cfg : Config) (c : Codec) (this : Model) (params : Params)
         (token : string),
    token <> "" ->
    decode c token = None ->
    next params = VStr token \/ previous params = VStr token ->
    run_outcome (paginate cfg c this params) = Thrown /\
    run_calls (paginate cfg c this params) = [] /\
    (forall page, run_outcome (paginate cfg c this params) <> Resolved page).
Proof.
  intros cfg c this params token Hne Hdec Hwhere.
  assert (Ht : truthy (VStr token) = true).
  { simpl. destruct (token =? "")%string eqn:E; auto.
    apply String.eqb_eq in E. contradiction. }
  assert (exists p, decode_cursors c params = inr p) as (p & Hp).
  { unfold decode_cursors. destruct Hwhere as [Hn | Hp].
    - destruct (if truthy (previous params) then _ else _); [| eauto].
      simpl. rewrite Hn, Ht. simpl. rewrite Hdec. eauto.
    - rewrite Hp, Ht. simpl. rewrite Hdec. eauto. }
  rewrite (paginate_inr cfg c this params p Hp). simpl.
  repeat split; auto. intros page. discriminate.
Qed.

Lemma undecodable_cursor_throws_witness :
  run_outcome (paginate demo_config demo_codec (mongo posts)
                 (set_next by_date (VStr "garbage"))) = Thrown.
Proof.
  apply (undecodable_cursor_throws demo_config demo_codec (mongo posts)
           (set_next by_date (VStr "garbage")) "garbage").
  - discriminate.
  - reflexivity.
  - left. reflexivity.
Defined.

(** ** sortAscending *)

(** Only the truthiness of [sortAscending] reaches the query and the
    page. *)
Lemma paginate_flag (cfg : Config) (c : Codec) (this : Model) (params : Params)
    (a b : option bool) :
  flag a = flag b ->
  run_calls (paginate cfg c this (set_sortAscending params a)) =
    run_calls (paginate cfg c this (set_sortAscending params b)) /\
  run_outcome (paginate cfg c this (set_sortAscending params a)) =
    run_outcome (paginate cfg c this (set_sortAscending params b)).
Proof.
  intros Hab. destruct params as [q l f pf n pv sa].
  unfold paginate, decode_cursors, set_sortAscending. simpl.
  destruct (if truthy pv then decode_token c pv else Some pv) as [pv' |];
    [| split; reflexivity].
  simpl. destruct (if truthy n then decode_token c n else Some n) as [n' |];
    [| split; reflexivity].
  unfold set_next, set_previous. simpl.
  unfold prepare, projection, clamp, defaults, params_limit, set_limit. simpl.
  assert (Hq : forall p1 p2 fv,
             params_query p1 = params_query p2 ->
             params_limit p1 = params_limit p2 ->
             params_paginatedField p1 = params_paginatedField p2 ->
             next p1 = next p2 -> previous p1 = previous p2 ->
             flag (sortAscending p1) = flag (sortAscending p2) ->
             find_query p1 fv = find_query p2 fv).
  { intros p1 p2 fv H1 H2 H3 H4 H5 H6.
    unfold find_query, queries, sort, sortDir, range_query, comparisonOp,
      sortAsc, shouldSecondarySortOnId.
    now rewrite H1, H2, H3, H4, H5, H6. }
  assert (Ha : forall p1 p2 pr1 pr2 rows,
             params_limit p1 = params_limit p2 ->
             params_paginatedField p1 = params_paginatedField p2 ->
             next p1 = next p2 -> previous p1 = previous p2 ->
             fieldsToBeRemoveInResponse pr1 = fieldsToBeRemoveInResponse pr2 ->
             removePaginatedFieldInResponse pr1 = removePaginatedFieldInResponse pr2 ->
             assemble c p1 pr1 rows = assemble c p2 pr2 rows).
  { intros p1 p2 pr1 pr2 rows H1 H2 H3 H4 H5 H6.
    unfold assemble, ordered, peeled, hasMore, cursor_value,
      shouldSecondarySortOnId.
    now rewrite H1, H2, H3, H4, H5, H6. }
  destruct (_ <? 1); simpl; destruct (_ >? MAX_LIMIT cfg); simpl;
    destruct f as [f |]; simpl; unfold params_paginatedField; simpl;
    repeat match goal with
           | |- context [if negb (truthy ?v) then _ else _] =>
               destruct (negb (truthy v)); simpl
           end;
    (split;
     [ f_equal; apply Hq; auto
     | match goal with
       | |- match this (find_query ?p1 ?fv) with _ => _ end =
            match this (find_query ?p2 _) with _ => _ end =>
           rewrite (Hq p1 p2 fv) by auto;
           destruct (this (find_query p2 fv)); auto
       end;
       apply (f_equal Resolved); apply Ha; auto ]).
Qed.

Lemma set_sortAscending_same (p : Params) :
  set_sortAscending p (sortAscending p) = p.
Proof. now destruct p. Qed.

(** C6, as the code has it.  [sortAscending] is not among the defaults of
    line 33: a call without it sends the same query and ends the same way
    as the same call with [sortAscending: false]. *)
Theorem sortAscending_absent_is_false :
  forall (cfg : Config) (c : Codec) (this : Model) (params : Params),
    sortAscending params = None ->
    run_calls (paginate cfg c this params) =
      run_calls (paginate cfg c this (set_sortAscending params (Some false))) /\
    run_outcome (paginate cfg c this params) =
      run_outcome (paginate cfg c this (set_sortAscending params (Some false))).
Proof.
  intros cfg c this params H.
  rewrite <- (set_sortAscending_same params) at 1 3. rewrite H.
  now apply paginate_flag.
Qed.

Lemma sortAscending_absent_is_false_witness :
  run_outcome (paginate demo_config demo_codec (mongo posts) no_params) =
  run_outcome (paginate demo_config demo_codec (mongo posts)
                 (set_sortAscending no_params (Some false))).
Proof.
  apply (sortAscending_absent_is_false demo_config demo_codec (mongo posts)
           no_params).
  reflexivity.
Defined.

(** C6, as the spec has it, fails: [paginate({limit: 2})] scans [_id]
    downwards and returns the two last posts, [paginate({limit: 2,
    sortAscending: true})] scans upwards and returns the two first. *)
Lemma sortAscending_default_counterexample :
  sortAscending limit_two = None /\
  map q_sort (run_calls (paginate demo_config demo_codec (mongo posts) limit_two))
    = [[("_id", VNum (-1))]] /\
  map q_sort (run_calls (paginate demo_config demo_codec (mongo posts)
                           (set_sortAscending limit_two (Some true))))
    = [[("_id", VNum 1)]] /\
  run_outcome (paginate demo_config demo_codec (mongo posts) limit_two) <>
  run_outcome (paginate demo_config demo_codec (mongo posts)
                 (set_sortAscending limit_two (Some true))).
Proof.
  repeat split; try reflexivity. vm_compute. discriminate.
Qed.

(** ** The projection and the fields added to it *)

Lemma omit_nil (o : obj) : omit o [] = o.
Proof. reflexivity. Qed.

Lemma remove_prop_has (o : obj) (k k' : string) :
  has_prop (remove_prop o k) k' = negb (k' =? k)%string && has_prop o k'.
Proof.
  induction o as [| [k0 v0] o IH]; simpl.
  - now rewrite andb_false_r.
  - destruct (String.eqb_spec k0 k) as [-> | Hne]; simpl.
    + rewrite IH. destruct (String.eqb_spec k k') as [-> | Hne'].
      * now rewrite String.eqb_refl.
      * reflexivity.
    + rewrite IH. destruct (String.eqb_spec k0 k') as [-> | Hne']; auto.
      destruct (String.eqb_spec k' k); [contradiction | reflexivity].
Qed.

Lemma remove_prop_get (o : obj) (k k' : string) :
  k' <> k -> get_prop (remove_prop o k) k' = get_prop o k'.
Proof.
  intros Hk. induction o as [| [k0 v0] o IH]; simpl; auto.
  destruct (String.eqb_spec k0 k) as [-> | Hne]; simpl.
  - rewrite IH. destruct (String.eqb_spec k k'); [congruence | reflexivity].
  - now rewrite IH.
Qed.

Lemma remove_prop_twice (o : obj) (k : string) :
  remove_prop (remove_prop o k) k = remove_prop o k.
Proof.
  induction o as [| [k0 v0] o IH]; simpl; auto.
  destruct (k0 =? k)%string eqn:E; simpl; auto.
  now rewrite E, IH.
Qed.

Lemma set_prop_keeps_keys (o : obj) (k k' : string) (v : value) :
  has_prop o k = true -> has_prop (set_prop o k v) k' = has_prop o k'.
Proof.
  induction o as [| [k0 v0] o IH]; simpl; [discriminate |].
  destruct (String.eqb_spec k0 k) as [-> | Hne]; simpl; auto.
  intros H. now rewrite IH.
Qed.

Lemma get_prop_has (o : obj) (k : string) :
  get_prop o k <> VUndef -> has_prop o k = true.
Proof.
  induction o as [| [k0 v0] o IH]; simpl; [congruence |].
  destruct (k0 =? k)%string; auto.
Qed.

(** [baseUnset] on an object, by the length of the path. *)
Lemma unset_in_eq (o : obj) (path : list string) :
  unset_in o path =
  match path with
  | [] => remove_prop o "undefined"
  | [k] => remove_prop o k
  | k :: rest =>
      if has_prop o k then set_prop o k (baseUnset (get_prop o k) rest) else o
  end.
Proof.
  unfold unset_in. destruct path as [| k [| k' rest]]; try reflexivity.
  cbn [baseUnset]. now destruct (has_prop o k).
Qed.

Lemma unset_in_keeps_absent (o : obj) (path : list string) (k : string) :
  has_prop o k = false -> has_prop (unset_in o path) k = false.
Proof.
  intros H. rewrite unset_in_eq. destruct path as [| k0 [| k1 rest]].
  - now rewrite remove_prop_has, H, andb_false_r.
  - now rewrite remove_prop_has, H, andb_false_r.
  - destruct (has_prop o k0) eqn:E; auto.
    now rewrite set_prop_keeps_keys.
Qed.

Lemma unset_in_other (o : obj) (path : list string) (k : string) :
  path_head path <> k -> get_prop (unset_in o path) k = get_prop o k.
Proof.
  intros H. rewrite unset_in_eq. destruct path as [| k0 [| k1 rest]]; simpl in H.
  - apply remove_prop_get. congruence.
  - apply remove_prop_get. congruence.
  - destruct (has_prop o k0); auto. now apply set_prop_other.
Qed.

Lemma unset_all_keeps_absent (o : obj) (paths : list (list string)) (k : string) :
  has_prop o k = false ->
  has_prop (fold_right (fun path acc => unset_in acc path) o paths) k = false.
Proof.
  intros H. induction paths as [| p ps IH]; simpl; auto.
  now apply unset_in_keeps_absent.
Qed.

Lemma unset_all_removes (o : obj) (paths : list (list string)) (k : string) :
  In [k] paths ->
  has_prop (fold_right (fun path acc => unset_in acc path) o paths) k = false.
Proof.
  induction paths as [| p ps IH]; simpl; [tauto |].
  intros [-> | H].
  - rewrite unset_in_eq, remove_prop_has. now rewrite String.eqb_refl.
  - apply unset_in_keeps_absent. auto.
Qed.

Lemma unset_all_other (o : obj) (paths : list (list string)) (k : string) :
  (forall p, In p paths -> path_head p <> k) ->
  get_prop (fold_right (fun path acc => unset_in acc path) o paths) k
  = get_prop o k.
Proof.
  induction paths as [| p ps IH]; simpl; auto.
  intros H. rewrite unset_in_other by auto. auto.
Qed.

Lemma unset_all_nested (o : obj) (paths : list (list string)) (a b : string)
    (inner : obj) :
  (forall p, In p paths -> p = [a; b] \/ path_head p <> a) ->
  get_prop o a = VObj inner ->
  get_prop (fold_right (fun path acc => unset_in acc path) o paths) a =
    if existsb (fun p => if list_eq_dec string_dec p [a; b] then true else false)
               paths
    then VObj (remove_prop inner b) else VObj inner.
Proof.
  intros Hall Ho. induction paths as [| p ps IH]; simpl; auto.
  assert (IH' := IH (fun q Hq => Hall q (or_intror Hq))). clear IH.
  set (X := fold_right (fun path acc => unset_in acc path) o ps) in *.
  destruct (list_eq_dec string_dec p [a; b]) as [-> | Hne]; simpl.
  - rewrite unset_in_eq.
    assert (Hh : has_prop X a = true).
    { apply get_prop_has. rewrite IH'. now destruct (existsb _ ps). }
    rewrite Hh, set_prop_same, IH'. cbn [baseUnset].
    destruct (existsb _ ps); cbn [delete_key]; auto.
    now rewrite remove_prop_twice.
  - rewrite unset_in_other; auto.
    destruct (Hall p (or_introl eq_refl)); [contradiction | assumption].
Qed.

(** No name given to [_.omit] is a key of what it returns. *)
Lemma omit_has_prop (o : obj) (names : list string) (k : string) :
  In k names -> has_prop (omit o names) k = false.
Proof.
  intros Hk. unfold omit. destruct (isKey k o) eqn:E.
  - apply unset_all_removes. apply in_map_iff. exists k. split; auto.
    unfold castPath. now rewrite E.
  - apply unset_all_keeps_absent. unfold isKey in E.
    apply orb_false_elim in E as [_ E]. exact E.
Qed.

(** A key at which no path starts keeps its value. *)
Lemma omit_other (o : obj) (names : list string) (k : string) :
  (forall name, In name names -> path_head (castPath name o) <> k) ->
  get_prop (omit o names) k = get_prop o k.
Proof.
  intros H. unfold omit. apply unset_all_other.
  intros p Hp. apply in_map_iff in Hp as (name & <- & Hname). auto.
Qed.

(** A path of two keys into an embedded object takes the second key out
    of that object and leaves the object in place. *)
Lemma omit_nested (o : obj) (names : list string) (name a b : string)
    (inner : obj) :
  In name names -> castPath name o = [a; b] ->
  (forall other, In other names ->
     castPath other o = [a; b] \/ path_head (castPath other o) <> a) ->
  get_prop o a = VObj inner ->
  get_prop (omit o names) a = VObj (remove_prop inner b).
Proof.
  intros Hin Hpath Hall Ho. unfold omit.
  rewrite (unset_all_nested o _ a b inner); auto.
  - replace (existsb _ _) with true; auto. symmetry.
    apply existsb_exists. exists [a; b]. split.
    + apply in_map_iff. exists name. auto.
    + now destruct (list_eq_dec string_dec [a; b] [a; b]).
  - intros p Hp. apply in_map_iff in Hp as (other & <- & Ho'). auto.
Qed.

Lemma strip_eq (pr : Projection) (docs : list obj) :
  (removePaginatedFieldInResponse pr = false ->
   fieldsToBeRemoveInResponse pr = []) ->
  strip pr docs = map (fun doc => omit doc (fieldsToBeRemoveInResponse pr)) docs.
Proof.
  intros H. unfold strip. destruct (removePaginatedFieldInResponse pr); auto.
  rewrite H by reflexivity. induction docs as [| d docs IH]; simpl; auto.
  now rewrite omit_nil, <- IH.
Qed.

Lemma is_zero_iff (v : value) : is_zero v = true <-> v = VNum 0.
Proof.
  destruct v; simpl; split; try discriminate; auto.
  - destruct n; try discriminate; auto.
  - intros H. inversion H. reflexivity.
Qed.

(** Lines 56-72 for a supplied projection [f], with [pf] the paginated
    field. *)
Lemma projection_spec (p : Params) (f : obj) :
  fields p = Some f ->
  let pf := params_paginatedField p in
  let pr := projection p in
  exists f',
    proj_fields pr = Some f' /\
    fields (proj_params pr) = Some f' /\
    get_prop f' "_id" = VNum 1 /\
    truthy (get_prop f' pf) = true /\
    (forall k, k <> "_id" -> k <> pf -> get_prop f' k = get_prop f k) /\
    (truthy (get_prop f pf) = true -> f' = set_prop f "_id" (VNum 1)) /\
    (forall k, In k (fieldsToBeRemoveInResponse pr) <->
       (k = "_id" /\ get_prop f "_id" = VNum 0) \/
       (k = pf /\ pf <> "_id" /\ truthy (get_prop f pf) = false)) /\
    (removePaginatedFieldInResponse pr = false ->
     fieldsToBeRemoveInResponse pr = []) /\
    (truthy (get_prop f pf) = false -> get_prop f' pf = VNum 1).
Proof.
  intros Hf pf pr. subst pr. unfold projection. rewrite Hf.
  fold pf. clearbody pf. unfold extend. simpl.
  assert (Hzero : forall k,
             In k (if is_zero (get_prop f "_id") then ["_id"] else []) <->
             k = "_id" /\ get_prop f "_id" = VNum 0).
  { intros k. destruct (is_zero (get_prop f "_id")) eqn:Z; simpl.
    - apply is_zero_iff in Z. intuition congruence.
    - split; [intros [] | intros [_ Hz]].
      apply is_zero_iff in Hz. congruence. }
  assert (Hflag : is_zero (get_prop f "_id") = false ->
                  (if is_zero (get_prop f "_id") then ["_id"] else [])
                  = @nil string).
  { now intros ->. }
  destruct (String.eqb_spec pf "_id") as [Hid | Hid].
  - (* the paginated field is _id: it is truthy once forced *)
    rewrite Hid, set_prop_same. simpl.
    exists (set_prop f "_id" (VNum 1)). simpl.
    repeat match goal with |- _ /\ _ => split end;
      auto using set_prop_same.
    + now rewrite set_prop_same.
    + intros k Hk _. now apply set_prop_other.
    + intros k. rewrite Hzero. intuition congruence.
  - rewrite (set_prop_other f "_id" pf (VNum 1)) by congruence.
    destruct (truthy (get_prop f pf)) eqn:T; simpl.
    + exists (set_prop f "_id" (VNum 1)). simpl.
      repeat match goal with |- _ /\ _ => split end;
        auto using set_prop_same.
      * rewrite set_prop_other by congruence. exact T.
      * intros k Hk _. now apply set_prop_other.
      * intros k. rewrite Hzero. intuition congruence.
      * discriminate.
    + exists (set_prop (set_prop f "_id" (VNum 1)) pf (VNum 1)). simpl.
      repeat match goal with |- _ /\ _ => split end; auto.
      * rewrite set_prop_other by congruence. apply set_prop_same.
      * now rewrite set_prop_same.
      * intros k Hk Hk'. rewrite !set_prop_other by congruence. reflexivity.
      * discriminate.
      * intros k. rewrite in_app_iff, Hzero. simpl. intuition congruence.
      * discriminate.
      * intros _. apply set_prop_same.
Qed.

Lemma prepare_fields (cfg : Config) (p : Params) :
  fields (clamp cfg (defaults cfg p)) = fields p /\
  params_paginatedField (clamp cfg (defaults cfg p)) =
    match paginatedField p with Some f => f | None => "_id" end.
Proof.
  unfold clamp, defaults, params_limit, params_paginatedField. simpl.
  destruct (_ <? 1); simpl; destruct (_ >? MAX_LIMIT cfg); simpl; auto.
Qed.

(** C7, as the code has it.  With a projection [f] supplied, the
    projection sent to the store has [_id: 1] and a truthy
    [paginatedField]; the fields recorded for removal are [_id] exactly
    when [f] has [_id: 0], and [paginatedField] exactly when it is not
    ['_id'] and [f] has no truthy entry for it (an [_id] that [f] merely
    leaves out is not recorded and stays in the output).  Every returned
    document is the stored one after [_.omit] of the recorded names, which
    lodash reads as paths: no recorded name is a key of a returned
    document; a field at which no recorded path starts is as the store
    returned it; and a [paginatedField] that is a path of two keys into an
    embedded object is taken out of that object, which stays in the
    document.  Both cursors are encoded from the documents before the
    removal. *)
Theorem added_fields_are_stripped :
  forall (cfg : Config) (c : Codec) (this : Model) (params : Params)
         (f : obj) (page : Response.t),
    fields params = Some f ->
    run_outcome (paginate cfg c this params) = Resolved page ->
    let P := run_params (paginate cfg c this params) in
    let pf := params_paginatedField P in
    exists q rows f' synthetic,
      run_calls (paginate cfg c this params) = [q] /\
      this q = Rows rows /\
      q_projection q = Some f' /\
      get_prop f' "_id" = VNum 1 /\
      truthy (get_prop f' pf) = true /\
      (forall k, In k synthetic <->
         (k = "_id" /\ get_prop f "_id" = VNum 0) \/
         (k = pf /\ pf <> "_id" /\ truthy (get_prop f pf) = false)) /\
      Response.results page =
        map (fun doc => omit doc synthetic) (ordered P rows) /\
      (forall doc k, In doc (Response.results page) -> In k synthetic ->
                     has_prop doc k = false) /\
      (forall doc k,
         (forall name, In name synthetic -> path_head (castPath name doc) <> k) ->
         get_prop (omit doc synthetic) k = get_prop doc k) /\
      (forall doc a b inner,
         In pf synthetic -> castPath pf doc = [a; b] -> a <> "_id" ->
         get_prop doc a = VObj inner ->
         get_prop (omit doc synthetic) a = VObj (remove_prop inner b)) /\
      Response.previous page =
        option_map (fun doc => encode c (cursor_value P doc))
                   (first_doc (ordered P rows)) /\
      Response.next page =
        option_map (fun doc => encode c (cursor_value P doc))
                   (last_doc (ordered P rows)).
Proof.
  intros cfg c this params f page Hf H.
  destruct (resolved_inv _ _ _ _ _ H) as (p & rows & Hd & Hrows & Hpage).
  pose proof (decode_cursors_frame c params p Hd) as (_ & _ & Hf' & _).
  destruct (prepare_fields cfg p) as (Hcf & Hcpf).
  rewrite (paginate_inl cfg c this params p Hd). simpl.
  assert (Hpf : params_paginatedField (proj_params (prepare cfg p)) =
                params_paginatedField (clamp cfg (defaults cfg p))).
  { pose proof (prepare_frame cfg p) as (_ & _ & _ & _ & _ & E). congruence. }
  rewrite Hpf.
  assert (Hfc : fields (clamp cfg (defaults cfg p)) = Some f) by congruence.
  destruct (projection_spec _ f Hfc)
    as (f' & Hpj & _ & Hid & Htr & _ & _ & Hsyn & Hnil & _).
  fold (prepare cfg p) in Hpj, Hsyn, Hnil.
  set (Q := proj_params (prepare cfg p)) in *.
  exists (find_query Q (proj_fields (prepare cfg p))), rows, f',
    (fieldsToBeRemoveInResponse (prepare cfg p)).
  assert (Hres : Response.results page =
                 map (fun doc => omit doc (fieldsToBeRemoveInResponse (prepare cfg p)))
                     (ordered Q rows)).
  { subst page. rewrite assemble_results. now apply strip_eq. }
  repeat match goal with |- _ /\ _ => split end; auto.
  - intros doc k Hdoc Hk. rewrite Hres in Hdoc.
    apply in_map_iff in Hdoc as (d & <- & _). now apply omit_has_prop.
  - intros doc k Hk. now apply omit_other.
  - intros doc a b inner Hin Hpath Ha Hdoc.
    apply (omit_nested doc _ _ a b inner Hin Hpath); auto.
    intros other Hother. apply Hsyn in Hother as [[-> _] | [-> _]].
    + right. unfold castPath, isKey.
      change (reIsPlainProp "_id") with true. cbn [orb path_head]. congruence.
    + now left.
  - now subst page.
  - now subst page.
Qed.

Lemma added_fields_are_stripped_witness :
  exists page,
    run_outcome (paginate demo_config demo_codec (replying authored)
                   titles_by_author) = Resolved page /\
    forall doc, In doc (Response.results page) ->
      has_prop doc "author.name" = false /\ get_prop doc "author" = VObj [] /\
      has_prop doc "_id" = true.
Proof.
  eexists. split; [reflexivity |].
  destruct (added_fields_are_stripped demo_config demo_codec (replying authored)
              titles_by_author _ _ eq_refl eq_refl)
    as (q & rows & f' & synthetic & _ & Hrows & _ & _ & _ & Hsyn & Hres
        & Hgone & Hkept & Hnested & _).
  injection Hrows as <-.
  assert (Hpf : In "author.name" synthetic).
  { apply Hsyn. right.
    split; [reflexivity | split; [discriminate | reflexivity]]. }
  intros doc Hdoc. split; [now apply Hgone |].
  rewrite Hres in Hdoc. apply in_map_iff in Hdoc as (d & <- & Hd).
  assert (Hcases : d = authored_post 1 \/ d = authored_post 2).
  { vm_compute in Hd.
    destruct Hd as [<- | [<- | []]]; [left | right]; reflexivity. }
  split.
  - destruct Hcases as [-> | ->].
    + now rewrite (Hnested (authored_post 1) "author" "name"
                     [("name", VStr "Ann")] Hpf eq_refl
                     ltac:(discriminate) eq_refl).
    + now rewrite (Hnested (authored_post 2) "author" "name"
                     [("name", VStr "Ann")] Hpf eq_refl
                     ltac:(discriminate) eq_refl).
  - apply get_prop_has. rewrite Hkept.
    + destruct Hcases as [-> | ->]; discriminate.
    + intros name Hname. apply Hsyn in Hname as [[-> Hzero] | [-> _]].
      * discriminate Hzero.
      * destruct Hcases as [-> | ->]; discriminate.
Defined.

(** C7, as the spec has it, fails: with [fields: {title: 1}] and
    [paginatedField: 'date'] the caller did not ask for [_id], which is
    added to the projection; only [date] is recorded for removal, and the
    returned documents carry [_id]. *)
Lemma omitted_id_is_not_stripped_counterexample :
  fields titles_by_date = Some [("title", VNum 1)] /\
  fieldsToBeRemoveInResponse (prepare demo_config titles_by_date) = ["date"] /\
  exists page,
    run_outcome (paginate demo_config demo_codec (mongo posts) titles_by_date)
      = Resolved page /\
    Response.results page <> [] /\
    forall doc, In doc (Response.results page) -> has_prop doc "_id" = true.
Proof.
  split; [reflexivity |]. split; [reflexivity |].
  eexists. split; [reflexivity |]. split; [discriminate |].
  intros doc Hdoc. simpl in Hdoc.
  repeat destruct Hdoc as [<- | Hdoc]; try reflexivity. destruct Hdoc.
Qed.

(** ** Both cursors at once *)





(** ** What the call does to the caller's params *)

Lemma truthy_token (token : string) : token <> "" -> truthy (VStr token) = true.
Proof.
  intros H. simpl. destruct (String.eqb_spec token ""); auto.
Qed.

(** C10, as the code has it.  In a call that gets past the decoding of
    its cursors, the caller's object holds afterwards the decoded value
    in place of each non-empty [next] or [previous] token, and in place
    of a supplied [fields] an object with [_id: 1], with
    [paginatedField: 1] when it had no truthy entry for that field, and
    with its other entries as they were.  The object differs from the one
    passed in whenever a token does not decode to itself, or [fields] did
    not already hold [_id: 1] and a truthy entry for [paginatedField]. *)
Theorem params_are_overwritten :
  forall (cfg : Config) (c : Codec) (this : Model) (params : Params),
    run_outcome (paginate cfg c this params) <> Thrown ->
    let P := run_params (paginate cfg c this params) in
    let pf := params_paginatedField P in
    (forall token, next params = VStr token -> token <> "" ->
                   decode c token = Some (next P)) /\
    (forall token, previous params = VStr token -> token <> "" ->
                   decode c token = Some (previous P)) /\
    (forall f, fields params = Some f ->
       exists f',
         fields P = Some f' /\
         get_prop f' "_id" = VNum 1 /\
         (truthy (get_prop f pf) = false -> get_prop f' pf = VNum 1) /\
         (forall k, k <> "_id" -> k <> pf -> get_prop f' k = get_prop f k)) /\
    ((exists token, next params = VStr token /\ token <> "" /\
                    decode c token <> Some (VStr token)) \/
     (exists token, previous params = VStr token /\ token <> "" /\
                    decode c token <> Some (VStr token)) \/
     (exists f, fields params = Some f /\
                (get_prop f "_id" <> VNum 1 \/ truthy (get_prop f pf) = false)) ->
     P <> params).
Proof.
  intros cfg c this params H.
  destruct (not_thrown_inl _ _ _ _ H) as (p & Hd).
  rewrite (paginate_inl cfg c this params p Hd). simpl.
  pose proof (prepare_frame cfg p) as (Hn & Hp & _ & _ & _ & Hpf).
  pose proof (decode_cursors_frame c params p Hd) as (_ & _ & Hf & _).
  pose proof (decode_cursors_inl c params p Hd) as (Hdp & Hdn).
  destruct (prepare_fields cfg p) as (Hcf & Hcpf).
  set (P := proj_params (prepare cfg p)) in *.
  assert (Hnext : forall token, next params = VStr token -> token <> "" ->
                                decode c token = Some (next P)).
  { intros token E Hne. unfold decoded in Hdn.
    rewrite E, (truthy_token token Hne) in Hdn. simpl in Hdn. congruence. }
  assert (Hprev : forall token, previous params = VStr token -> token <> "" ->
                                decode c token = Some (previous P)).
  { intros token E Hne. unfold decoded in Hdp.
    rewrite E, (truthy_token token Hne) in Hdp. simpl in Hdp. congruence. }
  assert (Hfields : forall f, fields params = Some f ->
            exists f',
              fields P = Some f' /\
              get_prop f' "_id" = VNum 1 /\
              (truthy (get_prop f (params_paginatedField P)) = false ->
               get_prop f' (params_paginatedField P) = VNum 1) /\
              (forall k, k <> "_id" -> k <> params_paginatedField P ->
                         get_prop f' k = get_prop f k)).
  { intros f E.
    assert (Hfc : fields (clamp cfg (defaults cfg p)) = Some f) by congruence.
    destruct (projection_spec _ f Hfc)
      as (f' & _ & Hpp & Hid & _ & Hoth & _ & _ & _ & Hone).
    fold (prepare cfg p) in Hpp. fold P in Hpp.
    assert (Epf : params_paginatedField P =
                  params_paginatedField (clamp cfg (defaults cfg p)))
      by congruence.
    rewrite Epf. exists f'. auto. }
  repeat match goal with |- _ /\ _ => split end; auto.
  intros [(token & E & Hne & Hdiff) | [(token & E & Hne & Hdiff)
                                     | (f & E & Hdiff)]] Heq.
  - apply Hdiff. rewrite (Hnext token E Hne), Heq, E. reflexivity.
  - apply Hdiff. rewrite (Hprev token E Hne), Heq, E. reflexivity.
  - destruct (Hfields f E) as (f' & Ef' & Hid & Hone & _).
    rewrite Heq, E in Ef'. inversion Ef'. subst f'.
    destruct Hdiff as [Hdiff | Hdiff].
    + contradiction.
    + rewrite (Hone Hdiff) in Hdiff. discriminate.
Qed.

Lemma params_are_overwritten_witness :
  run_params (paginate demo_config demo_codec (mongo posts) by_date_next)
  <> by_date_next.
Proof.
  destruct (params_are_overwritten demo_config demo_codec (mongo posts)
              by_date_next ltac:(vm_compute; discriminate))
    as (_ & _ & _ & Hdiff).
  apply Hdiff. left. exists "[d1005,n105".
  split; [reflexivity |]. split; [discriminate |].
  vm_compute. discriminate.
Defined.

(** C10, as the spec has it, fails: a call whose [fields] already holds
    [_id: 1], pages by ['_id'] and supplies [query] and [limit] leaves
    the caller's object as it was. *)
Lemma supplied_fields_can_stay_unchanged_counterexample :
  fields ids_only = Some [("_id", VNum 1)] /\
  run_params (paginate demo_config demo_codec (mongo posts) ids_only) = ids_only.
Proof.
  split; reflexivity.
Qed.

(** ** Lists sorted by a strict order *)

Section Sorted.

Variable A : Type.
Variable before : A -> A -> bool.

Lemma sorted_by_app (l1 l2 : list A) :
  sorted_by before (l1 ++ l2) <->
  sorted_by before l1 /\ sorted_by before l2 /\
  (forall a b, In a l1 -> In b l2 -> before a b = true).
Proof.
  unfold sorted_by. induction l1 as [| x l1 IH]; simpl.
  - split.
    + intros H. split; [constructor | split; [assumption | intros a b []]].
    + tauto.
  - split.
    + intros H. apply StronglySorted_inv in H as [Hs Hx].
      apply IH in Hs as (H1 & H2 & H12).
      rewrite Forall_app in Hx. destruct Hx as [Hx1 Hx2].
      repeat split; auto.
      * now constructor.
      * intros a b [<- | Ha] Hb; auto.
        rewrite Forall_forall in Hx2. auto.
    + intros (H1 & H2 & H12).
      apply StronglySorted_inv in H1 as [Hs Hx].
      constructor.
      * apply IH. repeat split; auto.
      * apply Forall_app. split; auto.
        apply Forall_forall. intros b Hb. apply H12; auto.
Qed.

Lemma sorted_by_filter (f : A -> bool) (l : list A) :
  sorted_by before l -> sorted_by before (filter f l).
Proof.
  unfold sorted_by. induction 1 as [| x l Hs IH Hx]; simpl.
  - constructor.
  - destruct (f x); auto. constructor; auto.
    rewrite Forall_forall in *. intros y Hy.
    apply filter_In in Hy as [Hy _]. auto.
Qed.

End Sorted.

Lemma sorted_by_rev (A : Type) (before : A -> A -> bool) (l : list A) :
  sorted_by before l -> sorted_by (fun a b => before b a) (rev l).
Proof.
  induction 1 as [| x l Hs IH Hx]; simpl.
  - constructor.
  - apply sorted_by_app. repeat split; auto.
    + constructor; constructor.
    + intros a b Ha [<- | []]. rewrite Forall_forall in Hx.
      apply Hx. now apply in_rev.
Qed.

Section StrictOrder.

Variable A : Type.
Variable before : A -> A -> bool.
Hypothesis before_irrefl : forall a, before a a = false.
Hypothesis before_trans :
  forall a b c, before a b = true -> before b c = true -> before a c = true.

Lemma before_asym (a b : A) : before a b = true -> before b a = false.
Proof.
  intros Hab. destruct (before b a) eqn:Hba; auto.
  rewrite <- (before_irrefl a). symmetry. eapply before_trans; eauto.
Qed.

(** Two lists sorted by a strict order with the same elements are the
    same list. *)
Lemma sorted_by_unique (l1 l2 : list A) :
  sorted_by before l1 -> sorted_by before l2 ->
  (forall x, In x l1 <-> In x l2) -> l1 = l2.
Proof.
  intros H1. revert l2. induction H1 as [| x l1 Hs IH Hx]; intros l2 H2 Hin.
  - destruct l2 as [| y l2]; auto.
    destruct (proj2 (Hin y) (or_introl eq_refl)).
  - destruct H2 as [| y l2 Hs2 Hy].
    + destruct (proj1 (Hin x) (or_introl eq_refl)).
    + rewrite Forall_forall in Hx, Hy.
      assert (x = y) as ->.
      { destruct (proj1 (Hin x) (or_introl eq_refl)) as [E | Hx2]; auto.
        destruct (proj2 (Hin y) (or_introl eq_refl)) as [E | Hy1]; auto.
        pose proof (before_asym _ _ (Hx _ Hy1)) as Hn.
        rewrite (Hy _ Hx2) in Hn. discriminate. }
      f_equal. apply IH; auto. intros z. split; intros Hz.
      * destruct (proj1 (Hin z) (or_intror Hz)) as [E | Hz2]; auto.
        subst z. pose proof (Hx _ Hz) as C.
        rewrite before_irrefl in C. discriminate.
      * destruct (proj2 (Hin z) (or_intror Hz)) as [E | Hz1]; auto.
        subst z. pose proof (Hy _ Hz) as C.
        rewrite before_irrefl in C. discriminate.
Qed.

Lemma filter_all (f : A -> bool) (l : list A) :
  (forall x, In x l -> f x = true) -> filter f l = l.
Proof.
  induction l as [| x l IH]; simpl; intros H; auto.
  rewrite (H x) by auto. f_equal. auto.
Qed.

Lemma filter_none (f : A -> bool) (l : list A) :
  (forall x, In x l -> f x = false) -> filter f l = [].
Proof.
  induction l as [| x l IH]; simpl; intros H; auto.
  rewrite (H x) by auto. auto.
Qed.

(** Around an element of a sorted list: what comes after it is what lies
    to its right, what comes before it is what lies to its left. *)
Lemma filter_after (l1 l2 : list A) (x : A) :
  sorted_by before (l1 ++ x :: l2) ->
  filter (before x) (l1 ++ x :: l2) = l2.
Proof.
  intros H. apply sorted_by_app in H as (_ & H2 & H12).
  apply StronglySorted_inv in H2 as [_ Hx]. rewrite Forall_forall in Hx.
  rewrite filter_app. simpl. rewrite before_irrefl.
  rewrite filter_none, filter_all; auto.
  intros y Hy. apply before_asym. apply H12; simpl; auto.
Qed.

Lemma filter_before (l1 l2 : list A) (x : A) :
  sorted_by before (l1 ++ x :: l2) ->
  filter (fun y => before y x) (l1 ++ x :: l2) = l1.
Proof.
  intros H. apply sorted_by_app in H as (_ & H2 & H12).
  apply StronglySorted_inv in H2 as [_ Hx]. rewrite Forall_forall in Hx.
  rewrite filter_app. simpl. rewrite before_irrefl.
  rewrite filter_all, filter_none.
  - apply app_nil_r.
  - intros y Hy. apply before_asym. auto.
  - intros y Hy. apply H12; simpl; auto.
Qed.

(** A predicate that holds of everything after a point it holds at cuts
    a sorted list in two. *)
Lemma upward_split (P : A -> bool) (l : list A) :
  upward before P -> sorted_by before l ->
  l = filter (fun x => negb (P x)) l ++ filter P l.
Proof.
  intros HP. induction 1 as [| x l Hs IH Hx]; simpl; auto.
  destruct (P x) eqn:E; simpl.
  - rewrite Forall_forall in Hx.
    rewrite filter_none, filter_all; auto.
    + intros y Hy. apply (HP x); auto.
    + intros y Hy. rewrite (HP x y); auto.
  - f_equal. exact IH.
Qed.

(** The page of [L] elements that starts where [P] starts to hold, the
    element [p] that follows it, and the scan back from [p]. *)
Lemma scan_back (srt : list A) (P : A -> bool) (L : nat) (n p : A) :
  sorted_by before srt -> upward before P -> (1 <= L)%nat ->
  nth_error (firstn L (filter P srt))
            (List.length (firstn L (filter P srt)) - 1) = Some n ->
  nth_error (filter (before n) srt) 0 = Some p ->
  rev (firstn L (rev (filter (fun y => before y p) srt)))
  = firstn L (filter P srt).
Proof.
  intros HS HP HL Hn Hp.
  set (Sc := filter P srt) in *.
  assert (Hsplit : srt = filter (fun x => negb (P x)) srt ++ Sc)
    by now apply upward_split.
  set (G := filter (fun x => negb (P x)) srt) in *.
  set (fwd := firstn L Sc) in *.
  assert (Hfwd : exists fwd', fwd = fwd' ++ [n]).
  { destruct (exists_last (l := fwd)) as (fwd' & z & E).
    - intros E. rewrite E in Hn. discriminate.
    - exists fwd'. rewrite E in Hn |- *.
      rewrite length_app, nth_error_app2 in Hn by (simpl; lia).
      simpl in Hn.
      replace (List.length fwd' + 1 - 1 - List.length fwd')%nat with 0%nat
        in Hn by lia.
      simpl in Hn. congruence. }
  destruct Hfwd as (fwd' & Efwd).
  assert (ESc : Sc = fwd ++ skipn L Sc) by (symmetry; apply firstn_skipn).
  assert (ES : srt = (G ++ fwd') ++ n :: skipn L Sc).
  { rewrite Hsplit at 1. rewrite ESc at 1. rewrite Efwd.
    now rewrite <- !app_assoc. }
  assert (Hafter : filter (before n) srt = skipn L Sc).
  { rewrite ES at 1. apply filter_after. now rewrite <- ES. }
  rewrite Hafter in Hp.
  destruct (skipn L Sc) as [| p' rest] eqn:Eskip; [discriminate |].
  simpl in Hp. inversion Hp. subst p'.
  assert (Hlen : List.length fwd = L).
  { unfold fwd. apply firstn_length_le.
    pose proof (length_skipn L Sc) as Hk. rewrite Eskip in Hk.
    simpl in Hk. lia. }
  assert (ES' : srt = (G ++ fwd) ++ p :: rest).
  { rewrite ES, Efwd. now rewrite <- !app_assoc. }
  assert (Hbefore : filter (fun y => before y p) srt = G ++ fwd).
  { rewrite ES' at 1. apply filter_before. now rewrite <- ES'. }
  rewrite Hbefore, rev_app_distr, firstn_app, length_rev, Hlen.
  rewrite Nat.sub_diag. simpl. rewrite app_nil_r.
  rewrite firstn_all2 by (rewrite length_rev; lia).
  apply rev_involutive.
Qed.

End StrictOrder.

(** ** The sort of the store *)

Section InsertionSort.

Variable A : Type.
Variables leb before : A -> A -> bool.
Variable dom : list A.
Hypothesis before_irrefl : forall a, before a a = false.
Hypothesis before_trans :
  forall a b c, before a b = true -> before b c = true -> before a c = true.
Hypothesis leb_before :
  forall a b, In a dom -> In b dom -> leb a b = negb (before b a).
Hypothesis before_total :
  forall a b, In a dom -> In b dom ->
              before a b = false -> before b a = false -> a = b.

Lemma insert_by_In (x y : A) (s : list A) :
  In y (insert_by leb x s) <-> y = x \/ In y s.
Proof.
  induction s as [| e s IH]; simpl.
  - intuition.
  - destruct (leb x e); simpl; rewrite ?IH; intuition.
Qed.

Lemma sort_by_In (y : A) (l : list A) : In y (sort_by leb l) <-> In y l.
Proof.
  induction l as [| x l IH]; simpl; [tauto |].
  rewrite insert_by_In, IH. intuition.
Qed.

Lemma insert_by_sorted (x : A) (s : list A) :
  In x dom -> incl s dom -> ~ In x s ->
  sorted_by before s -> sorted_by before (insert_by leb x s).
Proof.
  intros Hx Hs Hnot Hsorted.
  induction Hsorted as [| e s Hss IH He]; simpl.
  - constructor; constructor.
  - assert (Hedom : In e dom) by (apply Hs; simpl; auto).
    rewrite (leb_before x e Hx Hedom).
    destruct (before e x) eqn:Eex; simpl.
    + constructor.
      * apply IH.
        -- intros y Hy. apply Hs. simpl. auto.
        -- intros Hin. apply Hnot. simpl. auto.
      * rewrite Forall_forall in *. intros y Hy.
        apply insert_by_In in Hy as [-> | Hy]; auto.
    + assert (Exe : before x e = true).
      { destruct (before x e) eqn:Exe; auto.
        elim Hnot. left. symmetry. now apply before_total. }
      constructor.
      * now constructor.
      * constructor; auto. rewrite Forall_forall in *.
        intros y Hy. eapply before_trans; eauto.
Qed.

Lemma sort_by_sorted (l : list A) :
  incl l dom -> NoDup l -> sorted_by before (sort_by leb l).
Proof.
  intros Hl Hnd. induction Hnd as [| x l Hx Hnd IH]; simpl.
  - constructor.
  - apply insert_by_sorted.
    + apply Hl. left. reflexivity.
    + intros y Hy. rewrite sort_by_In in Hy. apply Hl. right. exact Hy.
    + rewrite sort_by_In. exact Hx.
    + apply IH. intros y Hy. apply Hl. right. exact Hy.
Qed.

(** Sorting what a filter keeps is keeping what the filter keeps of the
    sorted list. *)
Lemma sort_by_filter (f : A -> bool) (l : list A) :
  incl l dom -> NoDup l ->
  sort_by leb (filter f l) = filter f (sort_by leb l).
Proof.
  intros Hl Hnd.
  apply (sorted_by_unique A before before_irrefl before_trans).
  - apply sort_by_sorted.
    + intros y Hy. apply filter_In in Hy as [Hy _]. auto.
    + now apply NoDup_filter.
  - apply sorted_by_filter. now apply sort_by_sorted.
  - intros y. rewrite sort_by_In, !filter_In, sort_by_In. tauto.
Qed.

End InsertionSort.

(** Sorting by the opposite order is reversing. *)
Lemma sort_by_opposite (A : Type) (leb leb' before : A -> A -> bool)
    (dom l : list A) :
  (forall a, before a a = false) ->
  (forall a b c, before a b = true -> before b c = true -> before a c = true) ->
  (forall a b, In a dom -> In b dom -> leb a b = negb (before b a)) ->
  (forall a b, In a dom -> In b dom -> leb' a b = negb (before a b)) ->
  (forall a b, In a dom -> In b dom ->
               before a b = false -> before b a = false -> a = b) ->
  incl l dom -> NoDup l ->
  sort_by leb' l = rev (sort_by leb l).
Proof.
  intros Hirr Htrans Hleb Hleb' Htot Hl Hnd.
  apply (sorted_by_unique A (fun a b => before b a)).
  - intros a. apply Hirr.
  - intros a b c Hab Hbc. eapply Htrans; eauto.
  - apply (sort_by_sorted A leb' (fun a b => before b a) dom);
      first [ assumption
            | intros a b c Hab Hbc; eapply Htrans; eassumption
            | intros a b Ha Hb H1 H2; apply Htot; assumption ].
  - apply sorted_by_rev.
    now apply (sort_by_sorted A leb before dom).
  - intros y. rewrite <- in_rev, !sort_by_In. tauto.
Qed.

(** ** The order of a well-keyed collection *)

Lemma lex_lt_irrefl (a : Z * Z) : lex_lt a a = false.
Proof.
  unfold lex_lt. rewrite !Z.ltb_irrefl. now rewrite andb_false_r.
Qed.

Lemma lex_lt_iff (a b : Z * Z) :
  lex_lt a b = true <-> fst a < fst b \/ (fst a = fst b /\ snd a < snd b).
Proof.
  unfold lex_lt. rewrite orb_true_iff, andb_true_iff, !Z.ltb_lt, Z.eqb_eq.
  tauto.
Qed.

Lemma lex_lt_trans (a b c : Z * Z) :
  lex_lt a b = true -> lex_lt b c = true -> lex_lt a c = true.
Proof.
  rewrite !lex_lt_iff. lia.
Qed.

Lemma lex_lt_total (a b : Z * Z) :
  lex_lt a b = false -> lex_lt b a = false -> a = b.
Proof.
  intros Hab Hba.
  assert (~ (fst a < fst b \/ (fst a = fst b /\ snd a < snd b))) as H1.
  { rewrite <- lex_lt_iff. congruence. }
  assert (~ (fst b < fst a \/ (fst b = fst a /\ snd b < snd a))) as H2.
  { rewrite <- lex_lt_iff. congruence. }
  destruct a, b. simpl in *. f_equal; lia.
Qed.

Lemma scan_before_irrefl (pf : string) (asc : bool) (a : obj) :
  scan_before pf asc a a = false.
Proof.
  unfold scan_before. destruct asc; apply lex_lt_irrefl.
Qed.

Lemma scan_before_trans (pf : string) (asc : bool) (a b c : obj) :
  scan_before pf asc a b = true -> scan_before pf asc b c = true ->
  scan_before pf asc a c = true.
Proof.
  unfold scan_before. destruct asc; intros H1 H2;
    eapply lex_lt_trans; eauto.
Qed.

Lemma scan_before_flip (pf : string) (asc : bool) (a b : obj) :
  scan_before pf (negb asc) a b = scan_before pf asc b a.
Proof.
  unfold scan_before. now destruct asc.
Qed.

Lemma key_eqb_eq (a b : Z * Z) : key_eqb a b = true <-> a = b.
Proof.
  unfold key_eqb. rewrite andb_true_iff, !Z.eqb_eq.
  destruct a, b; simpl. split.
  - intros [-> ->]. reflexivity.
  - intros H. inversion H. auto.
Qed.

Lemma distinct_keys_NoDup (keys : list (Z * Z)) :
  distinct_keys keys = true -> NoDup keys.
Proof.
  induction keys as [| k keys IH]; simpl; intros H.
  - constructor.
  - apply andb_true_iff in H as [Hk Hrest]. constructor; auto.
    intros Hin. apply negb_true_iff in Hk.
    assert (existsb (key_eqb k) keys = true) as E.
    { apply existsb_exists. exists k. split; auto. now apply key_eqb_eq. }
    congruence.
Qed.

Lemma NoDup_map_injective (A B : Type) (f : A -> B) (l : list A) :
  NoDup (map f l) ->
  forall a b, In a l -> In b l -> f a = f b -> a = b.
Proof.
  induction l as [| x l IH]; simpl; intros Hnd a b Ha Hb Hab.
  - destruct Ha.
  - inversion Hnd as [| ? ? Hx Hnd']. subst.
    destruct Ha as [<- | Ha], Hb as [<- | Hb]; auto.
    + elim Hx. rewrite Hab. now apply in_map.
    + elim Hx. rewrite <- Hab. now apply in_map.
Qed.

Section WellKeyed.

Variable pf : string.
Variable coll : list obj.
Hypothesis keyed : well_keyed pf coll = true.

Lemma keyed_kinds (a b : obj) :
  In a coll -> In b coll ->
  same_kind (get_prop a pf) (get_prop b pf) = true /\
  same_kind (get_prop a "_id") (get_prop b "_id") = true.
Proof.
  intros Ha Hb. unfold well_keyed in keyed.
  apply andb_true_iff in keyed as [Hk _].
  rewrite forallb_forall in Hk. specialize (Hk a Ha).
  rewrite forallb_forall in Hk. specialize (Hk b Hb).
  now apply andb_true_iff in Hk.
Qed.

Lemma keyed_NoDup_keys : NoDup (map (sort_key pf) coll).
Proof.
  unfold well_keyed in keyed. apply andb_true_iff in keyed as [_ Hd].
  now apply distinct_keys_NoDup.
Qed.

Lemma keyed_NoDup : NoDup coll.
Proof.
  apply (NoDup_map_inv (sort_key pf)). apply keyed_NoDup_keys.
Qed.

Lemma keyed_injective (a b : obj) :
  In a coll -> In b coll -> sort_key pf a = sort_key pf b -> a = b.
Proof.
  apply NoDup_map_injective. apply keyed_NoDup_keys.
Qed.

Lemma keyed_total (asc : bool) (a b : obj) :
  In a coll -> In b coll ->
  scan_before pf asc a b = false -> scan_before pf asc b a = false -> a = b.
Proof.
  intros Ha Hb H1 H2. apply keyed_injective; auto.
  unfold scan_before in *. destruct asc.
  - now apply lex_lt_total.
  - symmetry. now apply lex_lt_total.
Qed.

End WellKeyed.

Lemma same_kind_compare (a b : value) :
  same_kind a b = true ->
  scalar_compare a b = Some (rank a ?= rank b) /\
  scalar_eqb a b = (rank a =? rank b).
Proof.
  destruct a, b; simpl; try discriminate; auto.
Qed.

Lemma get_path_one (doc : obj) (k : string) :
  get_path (VObj doc) [k] = get_prop doc k.
Proof.
  simpl. now destruct (get_prop doc k).
Qed.

Lemma plain_field_spec (pf : string) :
  plain_field pf = true ->
  split_dot pf = [pf] /\ (pf =? "")%string = false /\
  (pf =? "$and")%string = false /\ (pf =? "$or")%string = false.
Proof.
  unfold plain_field. rewrite !andb_true_iff, !negb_true_iff.
  intros [[[H1 H2] H3] H4]. repeat split; auto.
  destruct (split_dot pf) as [| k [| ? ?]]; try discriminate.
  apply String.eqb_eq in H1. now subst k.
Qed.

Lemma field_of_plain (pf : string) (doc : obj) :
  plain_field pf = true -> field_of doc pf = get_prop doc pf.
Proof.
  intros H. apply plain_field_spec in H as (Hs & _).
  unfold field_of. rewrite Hs. apply get_path_one.
Qed.

Lemma field_of_id (doc : obj) : field_of doc "_id" = get_prop doc "_id".
Proof.
  unfold field_of. apply get_path_one.
Qed.

Lemma objectPath_get_plain (pf : string) (doc : obj) :
  plain_field pf = true -> objectPath_get doc pf = get_prop doc pf.
Proof.
  intros H. apply plain_field_spec in H as (Hs & He & _).
  unfold objectPath_get. rewrite He, Hs. apply get_path_one.
Qed.

Ltac zbool :=
  repeat match goal with
         | |- context [?x <? ?y] => destruct (Z.ltb_spec x y)
         | |- context [?x =? ?y] => destruct (Z.eqb_spec x y)
         end;
  simpl; try reflexivity; try lia.

(** The comparator the store sorts by, on documents of one kind of key:
    [a] is not after [b] in the scan. *)
Lemma sort_is_spec (p : Params) :
  sort p = sort_spec (params_paginatedField p) (sortAsc p).
Proof. apply sort_eq. Qed.

Lemma doc_leb_spec (pf : string) (asc : bool) (a b : obj) :
  plain_field pf = true ->
  same_kind (get_prop a pf) (get_prop b pf) = true ->
  same_kind (get_prop a "_id") (get_prop b "_id") = true ->
  doc_leb (sort_spec pf asc) a b = negb (scan_before pf asc b a).
Proof.
  intros Hplain Hk Hi.
  apply same_kind_compare in Hk as [Hk _].
  apply same_kind_compare in Hi as [Hi _].
  unfold doc_leb, sort_spec, scan_before, lex_lt, sort_key.
  destruct (String.eqb_spec pf "_id") as [E | E]; simpl.
  - rewrite E in *. rewrite !field_of_id, Hi.
    destruct asc; simpl;
      destruct (Z.compare_spec (rank (get_prop a "_id"))
                               (rank (get_prop b "_id"))); simpl; zbool.
  - rewrite !(field_of_plain pf) by assumption. rewrite !field_of_id, Hk.
    destruct asc; simpl;
      destruct (Z.compare_spec (rank (get_prop a pf)) (rank (get_prop b pf)));
      simpl; rewrite ?Hi;
      try destruct (Z.compare_spec (rank (get_prop a "_id"))
                                   (rank (get_prop b "_id")));
      simpl; zbool.
Qed.

(** The range filter of lines 79-98, read by the store: the documents
    that come after the document of the cursor in the scan. *)
Lemma matches_range (p : Params) (d0 d : obj) :
  let pf := params_paginatedField p in
  plain_field pf = true ->
  same_kind (get_prop d pf) (get_prop d0 pf) = true ->
  same_kind (get_prop d "_id") (get_prop d0 "_id") = true ->
  matches (range_query p (cursor_of pf d0)) d = scan_before pf (sortAsc p) d0 d.
Proof.
  intros pf Hplain Hk Hi.
  pose proof (plain_field_spec pf Hplain) as (_ & _ & Hand & Hor).
  apply same_kind_compare in Hk as [Hk Hke].
  apply same_kind_compare in Hi as [Hi _].
  unfold range_query, cursor_of, shouldSecondarySortOnId, comparisonOp,
    scan_before, lex_lt, sort_key. fold pf.
  destruct (String.eqb_spec pf "_id") as [E | E]; simpl.
  - rewrite E in *. rewrite !field_of_id.
    destruct (sortAsc p); simpl; rewrite Hi;
      destruct (Z.compare_spec (rank (get_prop d "_id"))
                               (rank (get_prop d0 "_id"))); simpl; zbool.
  - rewrite Hand, Hor. rewrite !(field_of_plain pf) by assumption.
    rewrite !field_of_id.
    destruct (sortAsc p); simpl; rewrite Hk, Hke, Hi;
      destruct (Z.compare_spec (rank (get_prop d pf)) (rank (get_prop d0 pf)));
      destruct (Z.compare_spec (rank (get_prop d "_id"))
                               (rank (get_prop d0 "_id")));
      simpl; zbool.
Qed.

(** ** The reply of the store to the query of a call *)

Lemma filter_and (A : Type) (f g : A -> bool) (l : list A) :
  filter (fun x => f x && g x) l = filter g (filter f l).
Proof.
  induction l as [| x l IH]; simpl; auto.
  destruct (f x); simpl; [destruct (g x) |]; now rewrite IH.
Qed.

Lemma matches_and (qs : list value) (d : obj) :
  matches (VObj [("$and", VArr qs)]) d = forallb (fun q => matches q d) qs.
Proof.
  simpl. apply andb_true_r.
Qed.

Lemma mongo_reply (coll : list obj) (p : Params) (fv : option obj)
    (start : option obj) :
  let pf := params_paginatedField p in
  plain_field pf = true ->
  well_keyed pf coll = true ->
  1 <= params_limit p ->
  starts_at coll p start ->
  mongo coll (find_query p fv) =
  Rows (map (project fv)
            (firstn (S (Z.to_nat (params_limit p))) (scanned coll p start))).
Proof.
  intros pf Hplain Hkeyed HL Hstart.
  unfold mongo, scanned, find_query.
  cbn [q_filter q_projection q_sort q_limit]. f_equal. f_equal.
  unfold take.
  destruct (Z.eqb_spec (params_limit p + 1) 0) as [E | _]; [lia |].
  replace (Z.abs_nat (params_limit p + 1))
    with (S (Z.to_nat (params_limit p))) by lia.
  f_equal.
  set (q0 := params_query p).
  set (asc := sortAsc p).
  assert (Hfilter :
    filter (matches (VObj [("$and", VArr (queries p))])) coll =
    filter (scan_pred pf asc start) (filter (matches q0) coll)).
  { rewrite <- filter_and. apply filter_ext_in. intros d Hd.
    rewrite matches_and. destruct start as [d0 |]; simpl in Hstart.
    - destruct Hstart as (Hsup & Hcur & Hd0).
      rewrite (queries_supplied p Hsup), Hcur. simpl.
      rewrite andb_true_r. f_equal.
      destruct (keyed_kinds pf coll Hkeyed d d0 Hd Hd0) as [Hk Hi].
      now apply matches_range.
    - destruct Hstart as (Hn & Hp).
      rewrite (queries_not_supplied p Hn Hp). reflexivity. }
  rewrite Hfilter. unfold sort_docs.
  apply (sort_by_filter obj (doc_leb (sort p)) (scan_before pf asc) coll).
  - apply scan_before_irrefl.
  - apply scan_before_trans.
  - intros a b Ha Hb.
    destruct (keyed_kinds pf coll Hkeyed a b Ha Hb) as [Hk Hi].
    rewrite sort_is_spec. now apply doc_leb_spec.
  - intros a b Ha Hb. now apply (keyed_total pf coll Hkeyed).
  - intros d Hd. apply filter_In in Hd. tauto.
  - apply NoDup_filter. now apply (keyed_NoDup pf).
Qed.

(** ** The page of a call on a collection *)

Lemma removelast_map (A B : Type) (f : A -> B) (l : list A) :
  removelast (map f l) = map f (removelast l).
Proof.
  induction l as [| x [| y l] IH]; simpl in *; auto. now rewrite IH.
Qed.

Lemma peeled_firstn (p : Params) (f : obj -> obj) (docs : list obj) :
  1 <= params_limit p ->
  peeled p (map f (firstn (S (Z.to_nat (params_limit p))) docs)) =
  map f (firstn (Z.to_nat (params_limit p)) docs).
Proof.
  intros HL. unfold peeled, hasMore.
  rewrite length_map, length_firstn.
  set (l := Z.to_nat (params_limit p)).
  destruct (Nat.le_gt_cases (List.length docs) l) as [Hle | Hgt].
  - replace (Z.of_nat (Nat.min (S l) (List.length docs)) >? params_limit p)
      with false by (symmetry; rewrite Z.gtb_ltb; apply Z.ltb_ge; lia).
    rewrite !firstn_all2 by lia. reflexivity.
  - replace (Z.of_nat (Nat.min (S l) (List.length docs)) >? params_limit p)
      with true by (symmetry; rewrite Z.gtb_ltb; apply Z.ltb_lt; lia).
    rewrite removelast_map. f_equal. now apply removelast_firstn.
Qed.

Lemma get_prop_project (f d : obj) (k : string) :
  truthy (get_prop f k) = true ->
  get_prop (project (Some f) d) k = get_prop d k.
Proof.
  intros Hk. simpl. induction d as [| [k' v] d IH]; simpl; auto.
  destruct (String.eqb_spec k' k) as [-> | Hne].
  - rewrite Hk. simpl. now rewrite String.eqb_refl.
  - destruct (truthy (get_prop f k')); simpl; auto.
    destruct (String.eqb_spec k' k); [contradiction | auto].
Qed.

Lemma cursor_value_plain (p : Params) (d : obj) :
  plain_field (params_paginatedField p) = true ->
  cursor_value p d = cursor_of (params_paginatedField p) d.
Proof.
  intros Hplain. unfold cursor_value, cursor_of, shouldSecondarySortOnId.
  rewrite (objectPath_get_plain _ d Hplain).
  destruct (String.eqb_spec (params_paginatedField p) "_id") as [E | E];
    simpl; auto.
  now rewrite E.
Qed.

(** The cursor of a document survives the projection of the query. *)
Lemma cursor_of_projected (cfg : Config) (p : Params) (d : obj) :
  let pr := prepare cfg p in
  let pf := params_paginatedField (proj_params pr) in
  cursor_of pf (project (proj_fields pr) d) = cursor_of pf d.
Proof.
  intros pr pf.
  assert (Hpf : pf = params_paginatedField (clamp cfg (defaults cfg p))).
  { pose proof (prepare_frame cfg p) as (_ & _ & _ & _ & _ & E).
    destruct (prepare_fields cfg p) as (_ & E'). unfold pf, pr. congruence. }
  destruct (fields (clamp cfg (defaults cfg p))) as [f |] eqn:Ef.
  - destruct (projection_spec _ f Ef) as (f' & Hpj & _ & Hid & Htr & _).
    fold (prepare cfg p) in Hpj. fold pr in Hpj. rewrite Hpj.
    rewrite <- Hpf in Htr. unfold cursor_of.
    rewrite !(get_prop_project f' d); auto.
    now rewrite Hid.
  - unfold pr, prepare, projection. now rewrite Ef.
Qed.

Lemma nth_error_map_first (c : Codec) (p : Params) (f : obj -> obj)
    (docs : list obj) (i : nat) :
  option_map (fun doc => encode c (cursor_value p doc)) (nth_error (map f docs) i)
  = option_map (fun doc => encode c (cursor_value p (f doc))) (nth_error docs i).
Proof.
  rewrite nth_error_map. now destruct (nth_error docs i).
Qed.

(** A call on a well-keyed collection resolves with the first documents
    of its scan: as many as the limit, in the order of the scan, or
    reversed when [previous] is there. *)
Lemma call_page (cfg : Config) (c : Codec) (coll : list obj)
    (params p : Params) (start : option obj) :
  decode_cursors c params = inl p ->
  let pr := prepare cfg p in
  let P := proj_params pr in
  let pf := params_paginatedField P in
  1 <= MAX_LIMIT cfg ->
  plain_field pf = true ->
  well_keyed pf coll = true ->
  starts_at coll P start ->
  let docs := firstn (Z.to_nat (params_limit P)) (scanned coll P start) in
  let shown := if supplied (previous P) then rev docs else docs in
  exists page,
    run_outcome (paginate cfg c (mongo coll) params) = Resolved page /\
    Response.results page = strip pr (map (project (proj_fields pr)) shown) /\
    Response.previous page =
      option_map (fun d => encode c (cursor_of pf d)) (nth_error shown 0) /\
    Response.next page =
      option_map (fun d => encode c (cursor_of pf d))
                 (nth_error shown (List.length shown - 1)).
Proof.
  intros Hd pr P pf Hmax Hplain Hkeyed Hstart docs shown.
  assert (HL : 1 <= params_limit P).
  { pose proof (prepare_frame cfg p) as (_ & _ & _ & E & _).
    fold pr in E. fold P in E. rewrite E.
    now apply effective_limit_bounds. }
  rewrite (paginate_inl cfg c (mongo coll) params p Hd).
  fold pr. fold P. cbn [run_outcome].
  rewrite (mongo_reply coll P (proj_fields pr) start Hplain Hkeyed HL Hstart).
  eexists. split; [reflexivity |].
  unfold assemble, first_doc, last_doc. cbn [Response.results
    Response.previous Response.next].
  assert (Hord : ordered P (map (project (proj_fields pr))
                   (firstn (S (Z.to_nat (params_limit P))) (scanned coll P start)))
                 = map (project (proj_fields pr)) shown).
  { unfold ordered. rewrite (peeled_firstn P _ _ HL). unfold shown, supplied.
    destruct (truthy (previous P)); auto. now rewrite map_rev. }
  rewrite Hord. fold (strip pr (map (project (proj_fields pr)) shown)).
  assert (Hcur : forall d,
            encode c (cursor_value P (project (proj_fields pr) d))
            = encode c (cursor_of pf d)).
  { intros d. rewrite (cursor_value_plain P _ Hplain). fold pf.
    f_equal. apply cursor_of_projected. }
  split; [reflexivity |].
  rewrite !nth_error_map_first, length_map. split.
  - destruct (nth_error shown 0); simpl; auto. now rewrite Hcur.
  - destruct (nth_error shown _); simpl; auto. now rewrite Hcur.
Qed.

(** ** Forward and back *)

(** The projection, the removal list, the limit, the query and the field
    of a call do not depend on its cursors. *)
Lemma prepare_shared (cfg : Config) (p p' : Params) :
  query p = query p' -> limit p = limit p' -> fields p = fields p' ->
  paginatedField p = paginatedField p' ->
  let pr := prepare cfg p in
  let pr' := prepare cfg p' in
  proj_fields pr = proj_fields pr' /\
  (forall docs, strip pr docs = strip pr' docs) /\
  params_paginatedField (proj_params pr) = params_paginatedField (proj_params pr') /\
  params_query (proj_params pr) = params_query (proj_params pr') /\
  params_limit (proj_params pr) = params_limit (proj_params pr').
Proof.
  intros Hq Hl Hf Hpf pr pr'.
  pose proof (prepare_frame cfg p) as (_ & _ & _ & El & Eq & Epf).
  pose proof (prepare_frame cfg p') as (_ & _ & _ & El' & Eq' & Epf').
  fold pr in El, Eq, Epf. fold pr' in El', Eq', Epf'.
  assert (HL : effective_limit cfg p = effective_limit cfg p')
    by (rewrite !effective_limit_eq; now rewrite Hl).
  assert (Hpr : proj_fields pr = proj_fields pr' /\
                fieldsToBeRemoveInResponse pr = fieldsToBeRemoveInResponse pr' /\
                removePaginatedFieldInResponse pr
                = removePaginatedFieldInResponse pr').
  { destruct (prepare_fields cfg p) as (Ef & Ep).
    destruct (prepare_fields cfg p') as (Ef' & Ep').
    unfold pr, pr', prepare, projection.
    rewrite Ef, Ef', Ep, Ep', <- Hf, <- Hpf.
    destruct (fields p); simpl; auto.
    destruct (negb _); simpl; auto. }
  destruct Hpr as (H1 & H2 & H3).
  split; [exact H1 |].
  split; [intros docs; unfold strip; now rewrite H2, H3 |].
  split; [now rewrite Epf, Epf', Hpf |].
  split; [now rewrite Eq, Eq', Hq |].
  now rewrite El, El', HL.
Qed.

Lemma scanned_scan (coll : list obj) (p : Params) (start : option obj) :
  scanned coll p start =
  scan coll (params_query p) (params_paginatedField p) (sortAsc p) start.
Proof.
  unfold scanned, scan. now rewrite sort_is_spec.
Qed.

Lemma nth_error_firstn_head (A : Type) (l : list A) (n : nat) :
  (1 <= n)%nat -> nth_error (firstn n l) 0 = nth_error l 0.
Proof.
  intros Hn. destruct n as [| n]; [lia |]. now destruct l.
Qed.


Section Symmetry.

Variable cfg : Config.
Variable c : Codec.
Variable coll : list obj.
Variable params : Params.

Let pf : string := effective_field params.
Let q0 : value := effective_query params.
Let l : nat := Z.to_nat (effective_limit cfg params).
Let asc : bool := flag (sortAscending params).

Hypothesis max_limit : 1 <= MAX_LIMIT cfg.
Hypothesis plain : plain_field pf = true.
Hypothesis keyed : well_keyed pf coll = true.
Hypothesis codec : round_trips c pf coll.
Hypothesis cursors : Forall (fun d => truthy (cursor_of pf d) = true) coll.

Lemma token_decodes (d : obj) (token : value) :
  handed_out c pf coll (Some d) token ->
  truthy token = true /\ decode_token c token = Some (cursor_of pf d).
Proof.
  intros [Hd ->]. unfold round_trips in codec.
  rewrite Forall_forall in codec. destruct (codec d Hd) as [Hne Hrt].
  split; [now apply truthy_token | exact Hrt].
Qed.

(** A call whose cursors are absent or were handed out for documents of
    the collection. *)
Lemma call_on (x : Params) (dn dp : option obj) :
  query x = query params -> limit x = limit params ->
  fields x = fields params -> paginatedField x = paginatedField params ->
  sortAscending x = sortAscending params ->
  handed_out c pf coll dn (next x) ->
  handed_out c pf coll dp (previous x) ->
  let start := match dn with Some d => Some d | None => dp end in
  let back := match dp with Some _ => true | None => false end in
  let docs := firstn l (scan coll q0 pf (xorb asc back) start) in
  let shown := if back then rev docs else docs in
  exists page,
    run_outcome (paginate cfg c (mongo coll) x) = Resolved page /\
    Response.results page =
      strip (prepare cfg params)
            (map (project (proj_fields (prepare cfg params))) shown) /\
    Response.previous page =
      option_map (fun d => encode c (cursor_of pf d)) (nth_error shown 0) /\
    Response.next page =
      option_map (fun d => encode c (cursor_of pf d))
                 (nth_error shown (List.length shown - 1)).
Proof.
  intros Hq Hl Hf Hpf Hsa Hn Hp start back docs shown.
  set (pv := match dp with Some d => cursor_of pf d | None => previous x end).
  set (nx := match dn with Some d => cursor_of pf d | None => next x end).
  assert (Hdec : decode_cursors c x = inl (set_next (set_previous x pv) nx)).
  { unfold decode_cursors.
    assert (E1 : (if truthy (previous x) then decode_token c (previous x)
                  else Some (previous x)) = Some pv).
    { destruct dp as [d |]; simpl in Hp.
      - destruct (token_decodes d _ Hp) as [-> ->]. reflexivity.
      - unfold supplied in Hp. now rewrite Hp. }
    rewrite E1. cbn [set_previous next].
    destruct dn as [d |]; simpl in Hn.
    - destruct (token_decodes d _ Hn) as [-> ->]. reflexivity.
    - unfold supplied in Hn. now rewrite Hn. }
  set (p := set_next (set_previous x pv) nx) in *.
  assert (Tn : truthy nx = match dn with Some _ => true | None => false end).
  { unfold nx. destruct dn as [d |]; simpl in Hn.
    - rewrite Forall_forall in cursors. apply cursors. tauto.
    - exact Hn. }
  assert (Tp : truthy pv = back).
  { unfold pv, back. destruct dp as [d |]; simpl in Hp.
    - rewrite Forall_forall in cursors. apply cursors. tauto.
    - exact Hp. }
  pose proof (prepare_frame cfg p) as (En & Ep & Es & El & Eq & Epf).
  destruct (prepare_shared cfg p params Hq Hl Hf Hpf)
    as (Sf & Sstrip & Spf & Sq & Sl).
  pose proof (prepare_frame cfg params) as (_ & _ & _ & El0 & Eq0 & Epf0).
  set (P := proj_params (prepare cfg p)) in *.
  assert (HPpf : params_paginatedField P = pf) by (rewrite Spf; exact Epf0).
  assert (HPq : params_query P = q0) by (rewrite Sq; exact Eq0).
  assert (HPl : Z.to_nat (params_limit P) = l)
    by (unfold l; now rewrite Sl, El0).
  assert (HPn : next P = nx) by (rewrite En; reflexivity).
  assert (HPp : previous P = pv) by (rewrite Ep; reflexivity).
  assert (HPs : sortAsc P = xorb asc back).
  { unfold sortAsc. rewrite HPp, Tp, Es. cbn [sortAscending p set_next
      set_previous]. rewrite Hsa. fold asc. now destruct asc, back. }
  assert (Hstart : starts_at coll P start).
  { unfold starts_at, start, range_cursor, supplied.
    rewrite HPn, HPp, Tn, Tp, HPpf.
    destruct dn as [d |]; simpl in Hn.
    - unfold nx. tauto.
    - destruct dp as [d |]; simpl in Hp; unfold back, pv; [| tauto].
      repeat split; auto; tauto. }
  destruct (call_page cfg c coll x p start Hdec max_limit)
    as (page & Hrun & Hres & Hprev & Hnext); fold P; try assumption.
  - now rewrite HPpf.
  - now rewrite HPpf.
  - fold P in Hres, Hprev, Hnext.
    rewrite scanned_scan, HPq, HPpf, HPs, HPl in Hres, Hprev, Hnext.
    unfold supplied in Hres, Hprev, Hnext.
    rewrite HPp, Tp in Hres, Hprev, Hnext.
    fold docs in Hres, Hprev, Hnext. fold shown in Hres, Hprev, Hnext.
    exists page. rewrite <- Sstrip, <- Sf. auto.
Qed.

Lemma scan_In (start : option obj) (a : bool) (n : nat) (d : obj) :
  In d (firstn n (scan coll q0 pf a start)) -> In d coll.
Proof.
  intros H.
  assert (H' : In d (scan coll q0 pf a start)).
  { rewrite <- (firstn_skipn n). apply in_or_app. now left. }
  unfold scan, sort_docs in H'.
  apply filter_In in H' as [H' _]. apply sort_by_In in H'.
  apply filter_In in H'. tauto.
Qed.

Lemma scan_sorted (a : bool) :
  sorted_by (scan_before pf a)
            (sort_docs (sort_spec pf a) (filter (matches q0) coll)).
Proof.
  unfold sort_docs.
  apply (sort_by_sorted obj (doc_leb (sort_spec pf a)) (scan_before pf a) coll).
  - apply scan_before_trans.
  - intros x y Hx Hy.
    destruct (keyed_kinds pf coll keyed x y Hx Hy) as [Hk Hi].
    now apply doc_leb_spec.
  - intros x y Hx Hy. now apply (keyed_total pf coll keyed).
  - intros d Hd. apply filter_In in Hd. tauto.
  - apply NoDup_filter. now apply (keyed_NoDup pf).
Qed.

(** The scan against the direction, up to a document, is the reverse of
    what the scan along the direction has before that document. *)
Lemma scan_opposite (a : bool) (p : obj) :
  scan coll q0 pf (negb a) (Some p) =
  rev (filter (fun y => scan_before pf a y p)
              (sort_docs (sort_spec pf a) (filter (matches q0) coll))).
Proof.
  unfold scan, sort_docs.
  rewrite (sort_by_opposite obj (doc_leb (sort_spec pf a))
             (doc_leb (sort_spec pf (negb a))) (scan_before pf a) coll).
  - rewrite filter_rev. f_equal. apply filter_ext. intros y. simpl.
    apply scan_before_flip.
  - apply scan_before_irrefl.
  - apply scan_before_trans.
  - intros x y Hx Hy.
    destruct (keyed_kinds pf coll keyed x y Hx Hy) as [Hk Hi].
    now apply doc_leb_spec.
  - intros x y Hx Hy.
    destruct (keyed_kinds pf coll keyed x y Hx Hy) as [Hk Hi].
    rewrite doc_leb_spec by assumption. now rewrite scan_before_flip.
  - intros x y Hx Hy. now apply (keyed_total pf coll keyed).
  - intros d Hd. apply filter_In in Hd. tauto.
  - apply NoDup_filter. now apply (keyed_NoDup pf).
Qed.

Lemma scan_pred_upward (a : bool) (start : option obj) :
  upward (scan_before pf a) (scan_pred pf a start).
Proof.
  intros x y Hx Hxy. destruct start as [d0 |]; simpl in *; auto.
  eapply scan_before_trans; eauto.
Qed.

(** Symmetry of paging where every cursor is truthy.  On a collection
    whose documents are told apart by the pair of their paginated field
    and [_id], these being numbers or dates, with a codec that gives back
    the cursors of the collection, and with every cursor of the
    collection truthy: when a call without [previous] (with no [next], or
    with a [next] token handed out for the collection) resolves with page
    N and a [next] token, and the call with that token resolves with a
    page that has a [previous] token, then the call with that [previous]
    token resolves with the documents of page N in the order of page N. *)
Theorem backward_reproduces_page :
  forall (d0 : option obj) (pageN pageN1 : Response.t) (tokN tokP : string),
    supplied (previous params) = false ->
    handed_out c pf coll d0 (next params) ->
    run_outcome (paginate cfg c (mongo coll) params) = Resolved pageN ->
    Response.next pageN = Some tokN ->
    run_outcome (paginate cfg c (mongo coll) (set_next params (VStr tokN)))
      = Resolved pageN1 ->
    Response.previous pageN1 = Some tokP ->
    exists back,
      run_outcome (paginate cfg c (mongo coll)
                     (set_previous (set_next params VUndef) (VStr tokP)))
        = Resolved back /\
      Response.results back = Response.results pageN.
Proof.
  intros d0 pageN pageN1 tokN tokP Hnoprev Hnext H1 HtokN H2 HtokP.
  set (srt := sort_docs (sort_spec pf asc) (filter (matches q0) coll)).
  (* page N *)
  destruct (call_on params d0 None) as (page1 & R1 & Res1 & _ & Next1);
    auto.
  rewrite H1 in R1. inversion R1. subst page1. clear R1.
  cbn [xorb] in Res1, Next1. rewrite xorb_false_r in Res1, Next1.
  assert (Hstart1 : match d0 with Some d => Some d | None => None end = d0)
    by now destruct d0.
  rewrite Hstart1 in Res1, Next1. clear Hstart1.
  set (docs1 := firstn l (scan coll q0 pf asc d0)) in *.
  rewrite HtokN in Next1.
  destruct (nth_error docs1 (List.length docs1 - 1)) as [n |] eqn:En;
    [| discriminate].
  simpl in Next1. injection Next1 as EtokN.
  assert (Hn : In n coll).
  { apply (scan_In d0 asc l). fold docs1. eapply nth_error_In; eauto. }
  (* page N+1 *)
  destruct (call_on (set_next params (VStr tokN)) (Some n) None)
    as (page2 & R2 & _ & Prev2 & _); auto.
  { simpl. split; [exact Hn | now rewrite EtokN]. }
  rewrite H2 in R2. inversion R2. subst page2. clear R2.
  rewrite xorb_false_r in Prev2. rewrite HtokP in Prev2.
  destruct (nth_error (firstn l (scan coll q0 pf asc (Some n))) 0)
    as [p |] eqn:Ep; [| discriminate].
  simpl in Prev2. injection Prev2 as EtokP.
  assert (Hp : In p coll).
  { apply (scan_In (Some n) asc l). eapply nth_error_In; eauto. }
  (* back *)
  destruct (call_on (set_previous (set_next params VUndef) (VStr tokP))
              None (Some p))
    as (back & R3 & Res3 & _); auto.
  { simpl. reflexivity. }
  { simpl. split; [exact Hp | now rewrite EtokP]. }
  exists back. split; [exact R3 |].
  rewrite Res3, Res1. f_equal. f_equal.
  rewrite xorb_true_r, scan_opposite. fold srt.
  assert (Hl : (1 <= l)%nat).
  { unfold l. pose proof (effective_limit_bounds cfg params max_limit). lia. }
  unfold docs1, scan. fold srt.
  apply (scan_back obj (scan_before pf asc) (scan_before_irrefl pf asc)
           (scan_before_trans pf asc) srt (scan_pred pf asc d0) l n p).
  - apply scan_sorted.
  - apply scan_pred_upward.
  - exact Hl.
  - exact En.
  - rewrite nth_error_firstn_head in Ep by assumption. exact Ep.
Qed.

End Symmetry.

Lemma backward_reproduces_page_witness :
  exists back,
    run_outcome (paginate demo_config demo_codec (mongo posts)
                   (set_previous (set_next by_date VUndef) (VStr "[d1006,n106")))
      = Resolved back /\
    Response.results back =
      [[("title", VStr "Post"); ("date", VDate 1001)];
       [("title", VStr "Post"); ("date", VDate 1002)];
       [("title", VStr "Post"); ("date", VDate 1003)];
       [("title", VStr "Post"); ("date", VDate 1004)];
       [("title", VStr "Post"); ("date", VDate 1005)]].
Proof.
  refine (backward_reproduces_page demo_config demo_codec posts by_date
            _ _ _ _ _ None _ _ "[d1005,n105" "[d1006,n106"
            _ _ eq_refl eq_refl eq_refl eq_refl).
  - simpl. lia.
  - reflexivity.
  - reflexivity.
  - unfold round_trips. repeat constructor; discriminate.
  - repeat constructor.
  - reflexivity.
  - reflexivity.
Defined.

Lemma decode_next_only (c : Codec) (x : Params) (token : string) (v : value) :
  supplied (previous x) = false -> next x = VStr token -> token <> "" ->
  decode c token = Some v ->
  decode_cursors c x = inl (set_next (set_previous x (previous x)) v).
Proof.
  intros Hp Hn Hne Hdec. unfold decode_cursors, supplied in *.
  rewrite Hp. cbn [set_previous next]. rewrite Hn, (truthy_token token Hne).
  simpl. now rewrite Hdec.
Qed.

Lemma decode_previous_only (c : Codec) (x : Params) (token : string) (v : value) :
  supplied (next x) = false -> previous x = VStr token -> token <> "" ->
  decode c token = Some v ->
  decode_cursors c x = inl (set_next (set_previous x v) (next x)).
Proof.
  intros Hn Hp Hne Hdec. unfold decode_cursors, supplied in *.
  rewrite Hp, (truthy_token token Hne). simpl. rewrite Hdec.
  cbn [set_previous next]. now rewrite Hn.
Qed.

(** C5 at a collection with an [_id] of 0, for every codec that gives
    back the cursors of the collection.  Paging [counters] by [_id], two
    at a time: the second page is the documents -2 and -1; the third
    page, reached with the [next] token of the second, starts at the
    document 0 and hands out the token of 0 as [previous]; that token
    decodes to the number 0, which lines 74 and 100 take for an absent
    cursor, and the call with it returns the first page, -4 and -3,
    instead of the second. *)
Theorem falsy_cursor_breaks_symmetry :
  forall c : Codec,
    round_trips c "_id" counters ->
    well_keyed "_id" counters = true /\
    exists page2 page3 back tokP,
      run_outcome (paginate demo_config c (mongo counters)
                     (set_next two_by_id (VStr (encode c (VNum (-3))))))
        = Resolved page2 /\
      Response.results page2 = [counter (-2); counter (-1)] /\
      Response.next page2 = Some (encode c (VNum (-1))) /\
      run_outcome (paginate demo_config c (mongo counters)
                     (set_next two_by_id (VStr (encode c (VNum (-1))))))
        = Resolved page3 /\
      Response.results page3 = [counter 0; counter 1] /\
      Response.previous page3 = Some tokP /\
      decode c tokP = Some (VNum 0) /\
      run_outcome (paginate demo_config c (mongo counters)
                     (set_previous two_by_id (VStr tokP)))
        = Resolved back /\
      Response.results back = [counter (-4); counter (-3)] /\
      Response.results back <> Response.results page2.
Proof.
  intros c Hrt. split; [reflexivity |].
  unfold round_trips in Hrt. rewrite Forall_forall in Hrt.
  assert (H3 : In (counter (-3)) counters) by (simpl; tauto).
  assert (H1 : In (counter (-1)) counters) by (simpl; tauto).
  assert (H0 : In (counter 0) counters) by (simpl; tauto).
  apply Hrt in H3 as [N3 D3]. apply Hrt in H1 as [N1 D1].
  apply Hrt in H0 as [N0 D0].
  change (cursor_of "_id" (counter (-3))) with (VNum (-3)) in N3, D3.
  change (cursor_of "_id" (counter (-1))) with (VNum (-1)) in N1, D1.
  change (cursor_of "_id" (counter 0)) with (VNum 0) in N0, D0.
  do 3 eexists. exists (encode c (VNum 0)).
  rewrite (paginate_inl demo_config c (mongo counters) _ _
             (decode_next_only c (set_next two_by_id (VStr (encode c (VNum (-3)))))
                _ _ eq_refl eq_refl N3 D3)).
  rewrite (paginate_inl demo_config c (mongo counters) _ _
             (decode_next_only c (set_next two_by_id (VStr (encode c (VNum (-1)))))
                _ _ eq_refl eq_refl N1 D1)).
  rewrite (paginate_inl demo_config c (mongo counters) _ _
             (decode_previous_only c (set_previous two_by_id (VStr (encode c (VNum 0))))
                _ _ eq_refl eq_refl N0 D0)).
  repeat match goal with |- _ /\ _ => split end;
    try reflexivity; try assumption.
  vm_compute. discriminate.
Qed.

Lemma falsy_cursor_breaks_symmetry_witness :
  exists tokP back,
    decode demo_codec tokP = Some (VNum 0) /\
    run_outcome (paginate demo_config demo_codec (mongo counters)
                   (set_previous two_by_id (VStr tokP))) = Resolved back /\
    Response.results back = [counter (-4); counter (-3)].
Proof.
  destruct (falsy_cursor_breaks_symmetry demo_codec)
    as (_ & page2 & page3 & back & tokP
        & _ & _ & _ & _ & _ & _ & Hd & Hb & Hr & _).
  - unfold round_trips. repeat constructor; discriminate.
  - exists tokP, back. auto.
Defined.

(** ** A cursor that decodes to a falsy value, call by call

    Lines 74, 77, 100, 148 and 149 test the decoded cursor by its
    truthiness.  A token that is there and decodes to [0], [''] or
    [false] (the cursor of a document whose [_id] is such a value, when
    paging by [_id]) is therefore taken for no cursor at all. *)

Lemma falsy_cursor_decodes (c : Codec) (params : Params) (tok : string)
    (v : value) :
  tok <> "" -> decode c tok = Some v -> truthy v = false ->
  (next params = VStr tok /\ supplied (previous params) = false) \/
  (previous params = VStr tok /\ supplied (next params) = false) ->
  exists p,
    decode_cursors c params = inl p /\
    truthy (next p) = false /\ truthy (previous p) = false.
Proof.
  intros Hne Hdec Hv [[Hn Hp] | [Hp Hn]].
  - exists (set_next (set_previous params (previous params)) v).
    split; [now apply (decode_next_only c params tok) |].
    cbn [next previous set_next set_previous]. auto.
  - exists (set_next (set_previous params v) (next params)).
    split; [now apply (decode_previous_only c params tok) |].
    cbn [next previous set_next set_previous]. auto.
Qed.

(** The call of a params object whose decoded cursors are both falsy. *)
Lemma run_without_cursor (cfg : Config) (c : Codec) (this : Model)
    (params p : Params) :
  decode_cursors c params = inl p ->
  truthy (next p) = false -> truthy (previous p) = false ->
  exists q,
    run_calls (paginate cfg c this params) = [q] /\
    q_filter q = VObj [("$and", VArr [effective_query params])] /\
    q_sort q = sort_spec (effective_field params) (flag (sortAscending params)) /\
    sortAsc (run_params (paginate cfg c this params))
      = flag (sortAscending params) /\
    forall rows, this q = Rows rows ->
      exists page,
        run_outcome (paginate cfg c this params) = Resolved page /\
        Response.hasPrevious page = false /\
        Response.hasNext page =
          (effective_limit cfg params <? Z.of_nat (List.length rows)).
Proof.
  intros Hd Tn0 Tp0.
  pose proof (decode_cursors_frame c params p Hd) as (Hq & _ & _ & Hpf & Hsa).
  pose proof (effective_limit_decode cfg c params p Hd) as HL.
  rewrite (paginate_inl cfg c this params p Hd).
  cbn [run_calls run_outcome run_params].
  pose proof (prepare_frame cfg p) as (En & Ep & Es & El & Eq & Epf).
  set (P := proj_params (prepare cfg p)) in *.
  assert (Tn : truthy (next P) = false) by now rewrite En.
  assert (Tp : truthy (previous P) = false) by now rewrite Ep.
  assert (Hasc : sortAsc P = flag (sortAscending params)).
  { unfold sortAsc. rewrite Tp, Es, Hsa.
    now destruct (flag (sortAscending params)). }
  exists (find_query P (proj_fields (prepare cfg p))).
  split; [reflexivity |].
  split; [cbn [find_query q_filter];
          rewrite (queries_not_supplied P Tn Tp), Eq;
          unfold effective_query; now rewrite Hq |].
  split; [cbn [find_query q_sort]; rewrite sort_is_spec, Epf, Hasc;
          unfold effective_field; now rewrite Hpf |].
  split; [exact Hasc |].
  intros rows Hrows. rewrite Hrows.
  eexists. split; [reflexivity |].
  unfold assemble. cbn [Response.hasPrevious Response.hasNext].
  rewrite Tn, Tp. cbn [orb andb].
  split; [reflexivity |].
  unfold hasMore. now rewrite Z.gtb_ltb, El, HL.
Qed.

(** C2 at a [previous] token that decodes to a falsy value.  The claim
    has the scan reversed whenever [previous] is supplied.  Here
    [previous] is supplied (a non-empty token that decodes), and the
    scan is not reversed: the one query sorts in the direction of
    [sortAscending] itself, which is not the sort the claim gives, and
    the operator is [$gt] for an ascending request and [$lt]
    otherwise. *)
Theorem falsy_previous_is_not_reversed :
  forall (cfg : Config) (c : Codec) (this : Model) (params : Params)
         (tok : string) (v : value),
    previous params = VStr tok -> tok <> "" ->
    decode c tok = Some v -> truthy v = false ->
    supplied (next params) = false ->
    let P := run_params (paginate cfg c this params) in
    let pf := effective_field params in
    let asc := flag (sortAscending params) in
    previous P = v /\
    sortAsc P = asc /\
    comparisonOp P = (if asc then "$gt" else "$lt") /\
    exists q,
      run_calls (paginate cfg c this params) = [q] /\
      q_sort q = sort_spec pf asc /\
      q_sort q <> sort_spec pf (negb asc).
Proof.
  intros cfg c this params tok v Hp Hne Hdec Hv Hn P pf asc.
  pose proof (decode_previous_only c params tok v Hn Hp Hne Hdec) as Hd.
  destruct (run_without_cursor cfg c this params _ Hd)
    as (q & Hq & _ & Hsort & Hasc & _); auto.
  split.
  { unfold P. rewrite (paginate_inl cfg c this params _ Hd).
    cbn [run_params].
    pose proof (prepare_frame cfg (set_next (set_previous params v) (next params)))
      as (_ & Ep & _).
    now rewrite Ep. }
  split; [exact Hasc |].
  split; [unfold comparisonOp, P, asc; now rewrite Hasc |].
  exists q. split; [exact Hq |]. split; [exact Hsort |].
  rewrite Hsort. unfold sort_spec, pf, asc.
  destruct (effective_field params =? "_id")%string,
    (flag (sortAscending params)); intros E; discriminate E.
Qed.

Lemma falsy_previous_is_not_reversed_witness :
  exists q,
    run_calls (paginate demo_config demo_codec (mongo counters)
                 (set_previous two_by_id (VStr "n0"))) = [q] /\
    q_sort q = [("_id", VNum 1)].
Proof.
  destruct (falsy_previous_is_not_reversed demo_config demo_codec
              (mongo counters) (set_previous two_by_id (VStr "n0")) "n0"
              (VNum 0) eq_refl ltac:(discriminate) eq_refl eq_refl eq_refl)
    as (_ & _ & _ & q & Hq & Hsort & _).
  exists q. split; [exact Hq | exact Hsort].
Defined.

(** C3 at a token that decodes to a falsy value.  The claim has
    [hasPrevious] true whenever [next] is supplied and [hasNext] true
    whenever [previous] is supplied.  With such a token as [next] (or as
    [previous]) and no other cursor, every reply of the store gives a
    page with [hasPrevious] false, and with [hasNext] true only when
    more than the limit documents came back. *)
Theorem falsy_cursor_clears_flags :
  forall (cfg : Config) (c : Codec) (this : Model) (params : Params)
         (tok : string) (v : value) (q : Query) (rows : list obj),
    tok <> "" -> decode c tok = Some v -> truthy v = false ->
    (next params = VStr tok /\ supplied (previous params) = false) \/
    (previous params = VStr tok /\ supplied (next params) = false) ->
    run_calls (paginate cfg c this params) = [q] ->
    this q = Rows rows ->
    exists page,
      run_outcome (paginate cfg c this params) = Resolved page /\
      Response.hasPrevious page = false /\
      Response.hasNext page =
        (effective_limit cfg params <? Z.of_nat (List.length rows)).
Proof.
  intros cfg c this params tok v q rows Hne Hdec Hv Hwhere Hq Hrows.
  destruct (falsy_cursor_decodes c params tok v Hne Hdec Hv Hwhere)
    as (p & Hd & Tn & Tp).
  destruct (run_without_cursor cfg c this params p Hd Tn Tp)
    as (q' & Hq' & _ & _ & _ & Hpage).
  rewrite Hq in Hq'. injection Hq' as <-. now apply Hpage.
Qed.

Lemma falsy_cursor_clears_flags_witness :
  exists page,
    run_outcome (paginate demo_config demo_codec (mongo counters)
                   (set_next two_by_id (VStr "n0"))) = Resolved page /\
    Response.hasPrevious page = false.
Proof.
  destruct (falsy_cursor_clears_flags demo_config demo_codec (mongo counters)
              (set_next two_by_id (VStr "n0")) "n0" (VNum 0) _ _
              ltac:(discriminate) eq_refl eq_refl
              ltac:(left; split; reflexivity) eq_refl eq_refl)
    as (page & Hpage & Hprev & _).
  exists page. split; [exact Hpage | exact Hprev].
Defined.

(** C4 at a token that decodes to a falsy value.  The claim has a range
    filter in every call in which a cursor is supplied.  With such a
    token as [next] (or as [previous]) and no other cursor, the filter
    of the one query is [{$and: [query]}]: the caller's query alone, with
    no range filter beside it. *)
Theorem falsy_cursor_adds_no_range_filter :
  forall (cfg : Config) (c : Codec) (this : Model) (params : Params)
         (tok : string) (v : value),
    tok <> "" -> decode c tok = Some v -> truthy v = false ->
    (next params = VStr tok /\ supplied (previous params) = false) \/
    (previous params = VStr tok /\ supplied (next params) = false) ->
    exists q,
      run_calls (paginate cfg c this params) = [q] /\
      q_filter q = VObj [("$and", VArr [effective_query params])].
Proof.
  intros cfg c this params tok v Hne Hdec Hv Hwhere.
  destruct (falsy_cursor_decodes c params tok v Hne Hdec Hv Hwhere)
    as (p & Hd & Tn & Tp).
  destruct (run_without_cursor cfg c this params p Hd Tn Tp)
    as (q & Hq & Hfilter & _).
  exists q. split; [exact Hq | exact Hfilter].
Qed.

Lemma falsy_cursor_adds_no_range_filter_witness :
  exists q,
    run_calls (paginate demo_config demo_codec (mongo counters)
                 (set_next two_by_id (VStr "n0"))) = [q] /\
    q_filter q = VObj [("$and", VArr [VObj []])].
Proof.
  destruct (falsy_cursor_adds_no_range_filter demo_config demo_codec
              (mongo counters) (set_next two_by_id (VStr "n0")) "n0" (VNum 0)
              ltac:(discriminate) eq_refl eq_refl
              ltac:(left; split; reflexivity))
    as (q & Hq & Hfilter).
  exists q. split; [exact Hq | exact Hfilter].
Defined.

(** * Further properties of [paginate] *)

(** ** The limit *)

Lemma decode_cursors_falsy (c : Codec) (params : Params) :
  supplied (next params) = false -> supplied (previous params) = false ->
  decode_cursors c params = inl params.
Proof.
  unfold decode_cursors, supplied. intros Hn Hp. rewrite Hp.
  cbn [set_previous next]. rewrite Hn. now destruct params.
Qed.

Lemma prepare_limit (cfg : Config) (p : Params) :
  limit (proj_params (prepare cfg p)) = Some (effective_limit cfg p).
Proof.
  pose proof (prepare_frame cfg p) as (_ & _ & _ & E & _).
  unfold params_limit in E.
  destruct (limit (proj_params (prepare cfg p))) as [l |] eqn:El.
  - now rewrite E.
  - exfalso. revert El.
    unfold prepare, projection, clamp, defaults, params_limit,
      params_paginatedField. simpl.
    destruct (_ <? 1); simpl; destruct (_ >? MAX_LIMIT cfg); simpl;
      destruct (fields p); simpl;
      repeat match goal with
             | |- context [if negb (truthy ?v) then _ else _] =>
                 destruct (negb (truthy v)); simpl
             end; discriminate.
Qed.

(** Lines 33-42 and 141.  With a ceiling of at least 1: a limit that is
    absent counts as the default; a limit below 1 pages by 1, one above
    the ceiling by the ceiling, and one in between by itself; the clamped
    limit is written into the caller's object, and the query asks for one
    more. *)
Theorem limit_is_clamped :
  forall (cfg : Config) (c : Codec) (this : Model) (params : Params),
    1 <= MAX_LIMIT cfg ->
    run_outcome (paginate cfg c this params) <> Thrown ->
    let asked := match limit params with
                 | Some l => l
                 | None => DEFAULT_LIMIT cfg
                 end in
    let L := effective_limit cfg params in
    (asked < 1 -> L = 1) /\
    (MAX_LIMIT cfg < asked -> L = MAX_LIMIT cfg) /\
    (1 <= asked <= MAX_LIMIT cfg -> L = asked) /\
    limit (run_params (paginate cfg c this params)) = Some L /\
    exists q,
      run_calls (paginate cfg c this params) = [q] /\ q_limit q = L + 1.
Proof.
  intros cfg c this params Hmax H asked L.
  destruct (not_thrown_inl _ _ _ _ H) as (p & Hd).
  pose proof (effective_limit_decode cfg c params p Hd) as HL.
  rewrite (paginate_inl cfg c this params p Hd). simpl.
  assert (Hcases : (asked < 1 -> L = 1) /\
                   (MAX_LIMIT cfg < asked -> L = MAX_LIMIT cfg) /\
                   (1 <= asked <= MAX_LIMIT cfg -> L = asked)).
  { unfold L. rewrite effective_limit_eq. fold asked. simpl.
    destruct (_ <? 1) eqn:E1; destruct (_ >? MAX_LIMIT cfg) eqn:E2;
      rewrite ?Z.gtb_ltb in E2;
      try apply Z.ltb_lt in E1; try apply Z.ltb_ge in E1;
      try apply Z.ltb_lt in E2; try apply Z.ltb_ge in E2;
      (split; [| split]); intros; lia. }
  destruct Hcases as (H1 & H2 & H3).
  repeat match goal with |- _ /\ _ => split end; auto.
  - rewrite prepare_limit. f_equal. exact HL.
  - eexists. split; [reflexivity |]. simpl.
    pose proof (prepare_frame cfg p) as (_ & _ & _ & E & _).
    rewrite E. unfold L. now rewrite HL.
Qed.

Lemma limit_is_clamped_witness :
  limit (run_params (paginate demo_config demo_codec (mongo posts)
                       (set_limit no_params 1000))) = Some 300.
Proof.
  destruct (limit_is_clamped demo_config demo_codec (mongo posts)
              (set_limit no_params 1000)
              ltac:(simpl; lia) ltac:(vm_compute; discriminate))
    as (_ & Hhigh & _ & Hl & _).
  rewrite Hl. apply (f_equal Some). apply Hhigh. simpl. lia.
Defined.

(** ** Calls without a cursor *)

(** Lines 39, 77-123 and 139-152.  A call in which neither cursor is
    there never throws; its filter is [{$and: [query]}] alone, its sort
    follows [sortAscending]; when the store replies, the page is the
    reply in the order of the store (without the extra document),
    [hasPrevious] is false and [hasNext] tells whether more than the
    limit came back. *)
Theorem first_page :
  forall (cfg : Config) (c : Codec) (this : Model) (params : Params),
    supplied (next params) = false ->
    supplied (previous params) = false ->
    exists q,
      run_calls (paginate cfg c this params) = [q] /\
      q_filter q = VObj [("$and", VArr [effective_query params])] /\
      q_sort q = sort_spec (effective_field params) (flag (sortAscending params)) /\
      q_lean q = true /\
      forall rows, this q = Rows rows ->
        exists page,
          run_outcome (paginate cfg c this params) = Resolved page /\
          Response.results page =
            strip (prepare cfg params)
              (if effective_limit cfg params <? Z.of_nat (List.length rows)
               then removelast rows else rows) /\
          Response.hasPrevious page = false /\
          Response.hasNext page =
            (effective_limit cfg params <? Z.of_nat (List.length rows)).
Proof.
  intros cfg c this params Hn Hp.
  pose proof (decode_cursors_falsy c params Hn Hp) as Hd.
  rewrite (paginate_inl cfg c this params params Hd). cbn [run_calls run_outcome].
  pose proof (prepare_frame cfg params) as (En & Ep & Es & El & Eq & Epf).
  set (P := proj_params (prepare cfg params)) in *.
  unfold supplied in Hn, Hp.
  assert (Tn : truthy (next P) = false) by now rewrite En.
  assert (Tp : truthy (previous P) = false) by now rewrite Ep.
  assert (Hasc : sortAsc P = flag (sortAscending params)).
  { unfold sortAsc. rewrite Tp, Es. now destruct (flag (sortAscending params)). }
  exists (find_query P (proj_fields (prepare cfg params))).
  split; [reflexivity |].
  split; [cbn [find_query q_filter];
          now rewrite (queries_not_supplied P Tn Tp), Eq |].
  split; [cbn [find_query q_sort]; now rewrite sort_is_spec, Epf, Hasc |].
  split; [reflexivity |].
  intros rows Hrows. rewrite Hrows.
  eexists. split; [reflexivity |].
  unfold assemble. cbn [Response.results Response.hasPrevious Response.hasNext].
  rewrite Tn, Tp. simpl.
  assert (Hmore : hasMore P rows
                  = (effective_limit cfg params <? Z.of_nat (List.length rows))).
  { unfold hasMore. now rewrite Z.gtb_ltb, El. }
  rewrite <- Hmore. repeat split.
  unfold ordered, peeled. now rewrite Tp.
Qed.

Lemma first_page_witness :
  exists q,
    run_calls (paginate demo_config demo_codec (mongo posts) by_date) = [q] /\
    q_filter q = VObj [("$and", VArr [VObj []])].
Proof.
  destruct (first_page demo_config demo_codec (mongo posts) by_date
              eq_refl eq_refl) as (q & Hq & Hf & _).
  exists q. split; [exact Hq | exact Hf].
Defined.

(** ** What the store does to the outcome *)

(** Lines 139-185.  The promise is rejected exactly when the store
    rejects the one query of the call, and with the reason of the store;
    no page comes out of such a call. *)
Theorem rejection_is_the_store_s :
  forall (cfg : Config) (c : Codec) (this : Model) (params : Params)
         (reason : string),
    run_outcome (paginate cfg c this params) = Rejected reason <->
    exists q,
      run_calls (paginate cfg c this params) = [q] /\ this q = Failure reason.
Proof.
  intros cfg c this params reason.
  destruct (decode_cursors c params) as [p | p] eqn:Hd.
  - rewrite (paginate_inl cfg c this params p Hd). simpl. split.
    + intros H. eexists. split; [reflexivity |].
      destruct (this _) as [rows | r]; [discriminate |]. congruence.
    + intros (q & Hq & Hf). inversion Hq. subst q. now rewrite Hf.
  - rewrite (paginate_inr cfg c this params p Hd). simpl. split.
    + discriminate.
    + intros (q & Hq & _). discriminate.
Qed.

(** Lines 144-177, on an empty reply.  With a ceiling of at least 1,
    when the store finds nothing the page has no results and neither
    token; [hasPrevious] is true exactly when [next] was there and
    [hasNext] exactly when [previous] was. *)
Theorem empty_reply :
  forall (cfg : Config) (c : Codec) (this : Model) (params : Params) (q : Query),
    1 <= MAX_LIMIT cfg ->
    run_calls (paginate cfg c this params) = [q] ->
    this q = Rows [] ->
    let P := run_params (paginate cfg c this params) in
    exists page,
      run_outcome (paginate cfg c this params) = Resolved page /\
      Response.results page = [] /\
      Response.previous page = None /\
      Response.next page = None /\
      Response.hasPrevious page = supplied (next P) /\
      Response.hasNext page = supplied (previous P).
Proof.
  intros cfg c this params q Hmax Hq Hrows.
  destruct (decode_cursors c params) as [p | p] eqn:Hd.
  - rewrite (paginate_inl cfg c this params p Hd) in *. simpl in *.
    inversion Hq. subst q. rewrite Hrows.
    eexists. split; [reflexivity |].
    pose proof (prepare_frame cfg p) as (_ & _ & _ & El & _).
    pose proof (effective_limit_bounds cfg p Hmax) as Hb.
    set (P := proj_params (prepare cfg p)) in *.
    assert (Hmore : hasMore P [] = false).
    { unfold hasMore. simpl. rewrite Z.gtb_ltb. apply Z.ltb_ge. lia. }
    unfold assemble, ordered, peeled, first_doc, last_doc, supplied.
    cbn [Response.results Response.previous Response.next
         Response.hasPrevious Response.hasNext].
    rewrite Hmore.
    destruct (truthy (previous P)), (truthy (next P)),
      (removePaginatedFieldInResponse (prepare cfg p)); simpl; auto.
  - rewrite (paginate_inr cfg c this params p Hd) in Hq. discriminate.
Qed.

Lemma empty_reply_witness :
  exists page,
    run_outcome (paginate demo_config demo_codec (mongo []) by_date_next)
      = Resolved page /\
    Response.results page = [] /\ Response.hasPrevious page = true.
Proof.
  destruct (empty_reply demo_config demo_codec (mongo []) by_date_next _
              ltac:(simpl; lia) eq_refl eq_refl)
    as (page & Hrun & Hres & _ & _ & Hprev & _).
  exists page. repeat split; auto.
Defined.

(** ** The tokens of a page *)

(** Lines 154-177.  A page has a [previous] token exactly when it has
    results, and likewise a [next] token; a page of one result has the
    same token as [previous] and as [next]. *)
Theorem tokens_iff_results :
  forall (cfg : Config) (c : Codec) (this : Model) (params : Params)
         (page : Response.t),
    run_outcome (paginate cfg c this params) = Resolved page ->
    (Response.previous page = None <-> Response.results page = []) /\
    (Response.next page = None <-> Response.results page = []) /\
    (List.length (Response.results page) = 1%nat ->
     Response.previous page = Response.next page).
Proof.
  intros cfg c this params page H.
  destruct (resolved_inv _ _ _ _ _ H) as (p & rows & _ & _ & ->).
  set (P := proj_params (prepare cfg p)).
  rewrite assemble_results. unfold assemble, first_doc, last_doc.
  cbn [Response.previous Response.next].
  set (docs := ordered P rows).
  assert (Hnil : strip (prepare cfg p) docs = [] <-> docs = []).
  { split; intros E.
    - apply length_zero_iff_nil. rewrite <- strip_length with (pr := prepare cfg p).
      now rewrite E.
    - now rewrite E; unfold strip; destruct (removePaginatedFieldInResponse _). }
  rewrite Hnil, strip_length.
  assert (Hmap : forall o : option obj,
             option_map (fun doc => encode c (cursor_value P doc)) o = None
             <-> o = None).
  { intros [d |]; simpl; split; auto; discriminate. }
  rewrite !Hmap. split; [| split].
  - destruct docs; simpl; split; auto; discriminate.
  - rewrite nth_error_None, <- length_zero_iff_nil. lia.
  - destruct docs as [| d [| e docs]]; simpl; auto; discriminate.
Qed.

Lemma tokens_iff_results_witness :
  exists page,
    run_outcome (paginate demo_config demo_codec (mongo [post 1]) by_date)
      = Resolved page /\
    Response.previous page = Response.next page.
Proof.
  eexists. split; [reflexivity |].
  apply (tokens_iff_results demo_config demo_codec (mongo [post 1]) by_date
           _ eq_refl).
  reflexivity.
Defined.

(** ** The order of lines 30 and 31 *)

(** Lines 30-31.  [previous] is decoded first.  When its token does not
    decode, the call throws with the caller's object untouched; when it
    decodes and the [next] token does not, the call throws after the
    decoded value has been written over [params.previous]. *)
Theorem throw_leaves_previous_decoded :
  forall (cfg : Config) (c : Codec) (this : Model) (params : Params)
         (tokP tokN : string),
    previous params = VStr tokP -> tokP <> "" ->
    next params = VStr tokN -> tokN <> "" ->
    (decode c tokP = None ->
     paginate cfg c this params =
     {| run_params := params; run_calls := []; run_outcome := Thrown |}) /\
    (forall v, decode c tokP = Some v -> decode c tokN = None ->
     paginate cfg c this params =
     {| run_params := set_previous params v; run_calls := [];
        run_outcome := Thrown |}).
Proof.
  intros cfg c this params tokP tokN Hp HneP Hn HneN. split.
  - intros Hdec. apply paginate_inr. unfold decode_cursors.
    rewrite Hp, (truthy_token tokP HneP). simpl. now rewrite Hdec.
  - intros v Hdec HdecN. apply paginate_inr. unfold decode_cursors.
    rewrite Hp, (truthy_token tokP HneP). simpl. rewrite Hdec.
    cbn [set_previous next]. rewrite Hn, (truthy_token tokN HneN). simpl.
    now rewrite HdecN.
Qed.

Lemma throw_leaves_previous_decoded_witness :
  previous (run_params (paginate demo_config demo_codec (mongo posts)
                          (set_next by_date_both (VStr "garbage"))))
  = VArr [VDate 1006; VNum 106].
Proof.
  destruct (throw_leaves_previous_decoded demo_config demo_codec (mongo posts)
              (set_next by_date_both (VStr "garbage"))
              "[d1006,n106" "garbage" eq_refl ltac:(discriminate)
              eq_refl ltac:(discriminate)) as (_ & H).
  rewrite (H _ eq_refl eq_refl). reflexivity.
Defined.

(** ** Cursors that are there but falsy *)

Lemma find_query_ext (p p' : Params) (fv : option obj) :
  params_query p = params_query p' ->
  params_limit p = params_limit p' ->
  params_paginatedField p = params_paginatedField p' ->
  sortAscending p = sortAscending p' ->
  previous p = previous p' ->
  (next p = next p' \/ (truthy (next p) = false /\ truthy (next p') = false)) ->
  find_query p fv = find_query p' fv.
Proof.
  intros Hq Hl Hpf Hs Hp Hn.
  assert (Hasc : sortAsc p = sortAsc p') by (unfold sortAsc; now rewrite Hs, Hp).
  unfold find_query. f_equal.
  - f_equal. f_equal. f_equal. f_equal. unfold queries, range_query,
      comparisonOp, shouldSecondarySortOnId.
    rewrite Hq, Hpf, Hp, Hasc.
    destruct Hn as [-> | [-> ->]]; reflexivity.
  - rewrite !sort_is_spec. now rewrite Hpf, Hasc.
  - now rewrite Hl.
Qed.

Lemma assemble_ext (c : Codec) (p p' : Params) (pr pr' : Projection)
    (rows : list obj) :
  params_limit p = params_limit p' ->
  params_paginatedField p = params_paginatedField p' ->
  previous p = previous p' ->
  truthy (next p) = truthy (next p') ->
  (forall docs, strip pr docs = strip pr' docs) ->
  assemble c p pr rows = assemble c p' pr' rows.
Proof.
  intros Hl Hpf Hp Hn Hstrip.
  unfold assemble.
  fold (strip pr (ordered p rows)). fold (strip pr' (ordered p' rows)).
  assert (Hord : ordered p rows = ordered p' rows)
    by (unfold ordered, peeled, hasMore; now rewrite Hl, Hp).
  assert (Hcur : forall d, cursor_value p d = cursor_value p' d)
    by (intros d; unfold cursor_value, shouldSecondarySortOnId; now rewrite Hpf).
  rewrite Hord, Hstrip, Hn, Hp. unfold hasMore. rewrite Hl.
  f_equal.
  - destruct (first_doc (ordered p' rows)); simpl; auto. now rewrite Hcur.
  - destruct (last_doc (ordered p' rows)); simpl; auto. now rewrite Hcur.
Qed.

(** Lines 31, 77 and 148.  A [next] that is falsy (the empty string, as
    well as [null], [false] or [0]) is never decoded and counts as
    absent: the call sends the same query and ends the same way as the
    call without [next]. *)
Theorem falsy_next_is_no_next :
  forall (cfg : Config) (c : Codec) (this : Model) (params : Params) (v : value),
    truthy v = false ->
    run_calls (paginate cfg c this (set_next params v)) =
      run_calls (paginate cfg c this (set_next params VUndef)) /\
    run_outcome (paginate cfg c this (set_next params v)) =
      run_outcome (paginate cfg c this (set_next params VUndef)).
Proof.
  intros cfg c this params v Hv.
  unfold paginate, decode_cursors. cbn [set_next previous next set_previous].
  destruct (if truthy (previous params) then decode_token c (previous params)
            else Some (previous params)) as [pv |]; [| split; reflexivity].
  rewrite Hv. cbn [truthy].
  set (p := set_next (set_previous (set_next params v) pv) v).
  set (p' := set_next (set_previous (set_next params VUndef) pv) VUndef).
  destruct (prepare_shared cfg p p' eq_refl eq_refl eq_refl eq_refl)
    as (Hf & Hstrip & Hpf & Hq & Hl).
  pose proof (prepare_frame cfg p) as (En & Ep & Es & _).
  pose proof (prepare_frame cfg p') as (En' & Ep' & Es' & _).
  set (P := proj_params (prepare cfg p)) in *.
  set (P' := proj_params (prepare cfg p')) in *.
  assert (HQ : find_query P (proj_fields (prepare cfg p))
               = find_query P' (proj_fields (prepare cfg p'))).
  { rewrite <- Hf. apply find_query_ext; auto.
    - now rewrite Es, Es'.
    - now rewrite Ep, Ep'.
    - right. rewrite En, En'. split; [exact Hv | reflexivity]. }
  cbn [run_calls run_outcome]. rewrite HQ. split; [reflexivity |].
  destruct (this _); auto. f_equal.
  apply assemble_ext; auto.
  - now rewrite Ep, Ep'.
  - rewrite En, En'. unfold p, p'. cbn [next set_next]. now rewrite Hv.
Qed.

Lemma falsy_next_is_no_next_witness :
  run_outcome (paginate demo_config demo_codec (mongo posts)
                 (set_next by_date (VStr ""))) =
  run_outcome (paginate demo_config demo_codec (mongo posts)
                 (set_next by_date VUndef)).
Proof.
  apply (falsy_next_is_no_next demo_config demo_codec (mongo posts) by_date
           (VStr "")).
  reflexivity.
Defined.

(** ** A second call on the same object *)














(** ** Paging through a collection *)

Lemma hasMore_firstn (p : Params) (f : obj -> obj) (docs : list obj) :
  1 <= params_limit p ->
  hasMore p (map f (firstn (S (Z.to_nat (params_limit p))) docs))
  = (Z.to_nat (params_limit p) <? List.length docs)%nat.
Proof.
  intros HL. unfold hasMore. rewrite length_map, length_firstn, Z.gtb_ltb.
  destruct (Nat.ltb_spec (Z.to_nat (params_limit p)) (List.length docs));
    [apply Z.ltb_lt | apply Z.ltb_ge]; lia.
Qed.

Lemma matches_find_query (coll : list obj) (p : Params) (fv : option obj)
    (start : option obj) (d : obj) :
  let pf := params_paginatedField p in
  plain_field pf = true ->
  well_keyed pf coll = true ->
  starts_at coll p start ->
  In d coll ->
  matches (q_filter (find_query p fv)) d =
  matches (params_query p) d && scan_pred pf (sortAsc p) start d.
Proof.
  intros pf Hplain Hkeyed Hstart Hd. cbn [find_query q_filter].
  rewrite matches_and. destruct start as [d0 |]; simpl in Hstart.
  - destruct Hstart as (Hsup & Hcur & Hd0).
    rewrite (queries_supplied p Hsup), Hcur. simpl.
    rewrite andb_true_r. f_equal.
    destruct (keyed_kinds pf coll Hkeyed d d0 Hd Hd0) as [Hk Hi].
    now apply matches_range.
  - destruct Hstart as (Hn & Hp).
    rewrite (queries_not_supplied p Hn Hp). reflexivity.
Qed.

Section PageOfSorted.

Variable A : Type.
Variable before : A -> A -> bool.
Hypothesis before_irrefl : forall a, before a a = false.
Hypothesis before_trans :
  forall a b c, before a b = true -> before b c = true -> before a c = true.

(** What comes after the last element of a page is what the page left
    of the scan. *)
Lemma after_page (srt : list A) (P : A -> bool) (L : nat) (n : A) :
  sorted_by before srt -> upward before P ->
  nth_error (firstn L (filter P srt))
            (List.length (firstn L (filter P srt)) - 1) = Some n ->
  filter (before n) srt = skipn L (filter P srt).
Proof.
  intros Hs HP Hn.
  set (Sc := filter P srt) in *.
  assert (Hsplit : srt = filter (fun x => negb (P x)) srt ++ Sc)
    by now apply (upward_split A before).
  set (G := filter (fun x => negb (P x)) srt) in *.
  set (fwd := firstn L Sc) in *.
  destruct (exists_last (l := fwd)) as (fwd' & z & E).
  { intros E. rewrite E in Hn. discriminate. }
  rewrite E in Hn.
  rewrite length_app, nth_error_app2 in Hn by (simpl; lia).
  simpl in Hn.
  replace (List.length fwd' + 1 - 1 - List.length fwd')%nat with 0%nat
    in Hn by lia.
  simpl in Hn. injection Hn as ->.
  assert (ES : srt = (G ++ fwd') ++ n :: skipn L Sc).
  { rewrite Hsplit at 1. rewrite <- (firstn_skipn L Sc) at 1. fold fwd.
    rewrite E. now rewrite <- !app_assoc. }
  rewrite ES at 1. apply (filter_after A before before_irrefl before_trans).
  now rewrite <- ES.
Qed.

Lemma sorted_by_firstn (n : nat) (srt : list A) :
  sorted_by before srt -> sorted_by before (firstn n srt).
Proof.
  intros H. rewrite <- (firstn_skipn n srt) in H.
  now apply sorted_by_app in H.
Qed.

End PageOfSorted.

Lemma sorted_by_ext (A : Type) (f g : A -> A -> bool) (l : list A) :
  (forall a b, f a b = g a b) -> sorted_by f l -> sorted_by g l.
Proof.
  intros Hfg. unfold sorted_by. induction 1 as [| x l Hs IH Hx];
    constructor; auto.
  rewrite Forall_forall in *. intros y Hy. rewrite <- Hfg. auto.
Qed.

Lemma firstn_twice (A : Type) (n : nat) (l : list A) :
  firstn n l ++ firstn n (skipn n l) = firstn (n + n) l.
Proof.
  rewrite firstn_skipn_comm.
  replace (firstn n l) with (firstn n (firstn (n + n) l)).
  - apply firstn_skipn.
  - rewrite firstn_firstn. f_equal. lia.
Qed.

Lemma strip_app (pr : Projection) (a b : list obj) :
  strip pr (a ++ b) = strip pr a ++ strip pr b.
Proof.
  unfold strip. destruct (removePaginatedFieldInResponse pr); auto.
  apply map_app.
Qed.

Section Paging.

Variable cfg : Config.
Variable c : Codec.
Variable coll : list obj.
Variable params : Params.

Let pf : string := effective_field params.
Let q0 : value := effective_query params.
Let l : nat := Z.to_nat (effective_limit cfg params).
Let asc : bool := flag (sortAscending params).

Hypothesis max_limit : 1 <= MAX_LIMIT cfg.
Hypothesis plain : plain_field pf = true.
Hypothesis keyed : well_keyed pf coll = true.
Hypothesis codec : round_trips c pf coll.
Hypothesis cursors : Forall (fun d => truthy (cursor_of pf d) = true) coll.

(** The params a call with handed-out cursors queries with. *)
Lemma call_on_params (x : Params) (dn dp : option obj) :
  query x = query params -> limit x = limit params ->
  fields x = fields params -> paginatedField x = paginatedField params ->
  sortAscending x = sortAscending params ->
  handed_out c pf coll dn (next x) ->
  handed_out c pf coll dp (previous x) ->
  let start := match dn with Some d => Some d | None => dp end in
  let back := match dp with Some _ => true | None => false end in
  exists p,
    decode_cursors c x = inl p /\
    let P := proj_params (prepare cfg p) in
    params_paginatedField P = pf /\
    params_query P = q0 /\
    Z.to_nat (params_limit P) = l /\
    1 <= params_limit P /\
    truthy (next P) = match dn with Some _ => true | None => false end /\
    truthy (previous P) = back /\
    sortAsc P = xorb asc back /\
    starts_at coll P start /\
    proj_fields (prepare cfg p) = proj_fields (prepare cfg params) /\
    (forall docs, strip (prepare cfg p) docs = strip (prepare cfg params) docs).
Proof.
  intros Hq Hl Hf Hpf Hsa Hn Hp start back.
  set (pv := match dp with Some d => cursor_of pf d | None => previous x end).
  set (nx := match dn with Some d => cursor_of pf d | None => next x end).
  exists (set_next (set_previous x pv) nx).
  assert (Hdec : decode_cursors c x = inl (set_next (set_previous x pv) nx)).
  { unfold decode_cursors.
    assert (E1 : (if truthy (previous x) then decode_token c (previous x)
                  else Some (previous x)) = Some pv).
    { destruct dp as [d |]; simpl in Hp.
      - destruct (token_decodes c coll params codec d _ Hp) as [-> ->].
        reflexivity.
      - unfold supplied in Hp. now rewrite Hp. }
    rewrite E1. cbn [set_previous next].
    destruct dn as [d |]; simpl in Hn.
    - destruct (token_decodes c coll params codec d _ Hn) as [-> ->].
      reflexivity.
    - unfold supplied in Hn. now rewrite Hn. }
  split; [exact Hdec |].
  set (p := set_next (set_previous x pv) nx) in *.
  assert (Tn : truthy nx = match dn with Some _ => true | None => false end).
  { unfold nx. destruct dn as [d |]; simpl in Hn.
    - rewrite Forall_forall in cursors. apply cursors. tauto.
    - exact Hn. }
  assert (Tp : truthy pv = back).
  { unfold pv, back. destruct dp as [d |]; simpl in Hp.
    - rewrite Forall_forall in cursors. apply cursors. tauto.
    - exact Hp. }
  pose proof (prepare_frame cfg p) as (En & Ep & Es & El & Eq & Epf).
  destruct (prepare_shared cfg p params Hq Hl Hf Hpf)
    as (Sf & Sstrip & Spf & Sq & Sl).
  pose proof (prepare_frame cfg params) as (_ & _ & _ & El0 & Eq0 & Epf0).
  set (P := proj_params (prepare cfg p)) in *.
  assert (HPpf : params_paginatedField P = pf) by (rewrite Spf; exact Epf0).
  assert (HPn : next P = nx) by (rewrite En; reflexivity).
  assert (HPp : previous P = pv) by (rewrite Ep; reflexivity).
  assert (HPq : params_query P = q0) by (rewrite Sq; exact Eq0).
  assert (HPl : Z.to_nat (params_limit P) = l) by (unfold l; now rewrite Sl, El0).
  assert (HPl1 : 1 <= params_limit P)
    by (rewrite Sl, El0; now apply effective_limit_bounds).
  assert (HTn : truthy (next P)
                = match dn with Some _ => true | None => false end)
    by now rewrite HPn.
  assert (HTp : truthy (previous P) = back) by now rewrite HPp.
  assert (HPs : sortAsc P = xorb asc back).
  { unfold sortAsc. rewrite HPp, Tp, Es. cbn [sortAscending p set_next
      set_previous]. rewrite Hsa. fold asc. now destruct asc, back. }
  assert (Hstart : starts_at coll P start).
  { unfold starts_at, start, range_cursor, supplied.
    rewrite HPn, HPp, Tn, Tp, HPpf.
    destruct dn as [d |]; simpl in Hn.
    - unfold nx. tauto.
    - destruct dp as [d |]; simpl in Hp; unfold back, pv; [| tauto].
      repeat split; auto; tauto. }
  cbv zeta.
  repeat match goal with |- _ /\ _ => split end; assumption.
Qed.

Lemma call_on_flags (x : Params) (dn dp : option obj) (page : Response.t) :
  query x = query params -> limit x = limit params ->
  fields x = fields params -> paginatedField x = paginatedField params ->
  sortAscending x = sortAscending params ->
  handed_out c pf coll dn (next x) ->
  handed_out c pf coll dp (previous x) ->
  run_outcome (paginate cfg c (mongo coll) x) = Resolved page ->
  let start := match dn with Some d => Some d | None => dp end in
  let back := match dp with Some _ => true | None => false end in
  let more :=
    (l <? List.length (scan coll q0 pf (xorb asc back) start))%nat in
  Response.hasPrevious page
    = (match dn with Some _ => true | None => false end) || (back && more) /\
  Response.hasNext page = back || more.
Proof.
  intros Hq Hl Hf Hpf Hsa Hn Hp Hrun start back more.
  destruct (call_on_params x dn dp Hq Hl Hf Hpf Hsa Hn Hp)
    as (p & Hdec & HPpf & HPq & HPl & HPl1 & HTn & HTp & HPs & Hstart & _).
  rewrite (paginate_inl cfg c (mongo coll) x p Hdec) in Hrun.
  cbn [run_outcome] in Hrun.
  set (P := proj_params (prepare cfg p)) in *.
  assert (Hplain : plain_field (params_paginatedField P) = true)
    by now rewrite HPpf.
  assert (Hkeyed : well_keyed (params_paginatedField P) coll = true)
    by now rewrite HPpf.
  rewrite (mongo_reply coll P (proj_fields (prepare cfg p)) start
             Hplain Hkeyed HPl1 Hstart) in Hrun.
  set (rows := map _ (firstn _ _)) in Hrun.
  assert (Hm : hasMore P rows
               = (Z.to_nat (params_limit P)
                  <? List.length (scanned coll P start))%nat)
    by apply (hasMore_firstn P _ _ HPl1).
  clearbody rows. injection Hrun as <-.
  unfold assemble. cbn [Response.hasPrevious Response.hasNext].
  rewrite Hm, scanned_scan, HPq, HPpf, HPs, HPl.
  fold start back more. rewrite HTn, HTp. split; reflexivity.
Qed.

(** Lines 77-98 with 139-141, over two calls.  After a page reached
    without [previous], the call with its [next] token resolves with the
    documents that follow it in the scan: the two pages, one after the
    other, are the first two limits of documents that the scan of the
    first call has, none missing and none twice. *)
Theorem next_page_continues :
  forall (d0 : option obj) (pageN : Response.t) (tokN : string),
    supplied (previous params) = false ->
    handed_out c pf coll d0 (next params) ->
    run_outcome (paginate cfg c (mongo coll) params) = Resolved pageN ->
    Response.next pageN = Some tokN ->
    exists pageN1,
      run_outcome (paginate cfg c (mongo coll) (set_next params (VStr tokN)))
        = Resolved pageN1 /\
      Response.results pageN ++ Response.results pageN1 =
        strip (prepare cfg params)
              (map (project (proj_fields (prepare cfg params)))
                   (firstn (l + l) (scan coll q0 pf asc d0))).
Proof.
  intros d0 pageN tokN Hnoprev Hnext H1 HtokN.
  destruct (call_on cfg c coll params max_limit plain keyed codec cursors
              params d0 None) as (page1 & R1 & Res1 & _ & Next1); auto.
  rewrite H1 in R1. injection R1 as <-.
  fold pf q0 l asc in Res1, Next1.
  rewrite xorb_false_r in Res1, Next1.
  assert (Hstart1 : match d0 with Some d => Some d | None => None end = d0)
    by now destruct d0.
  rewrite Hstart1 in Res1, Next1. clear Hstart1.
  set (docs1 := firstn l (scan coll q0 pf asc d0)) in *.
  rewrite HtokN in Next1.
  destruct (nth_error docs1 (List.length docs1 - 1)) as [n |] eqn:En;
    [| discriminate].
  simpl in Next1. injection Next1 as EtokN.
  assert (Hn : In n coll).
  { apply (scan_In coll params d0 asc l). fold pf q0 docs1.
    eapply nth_error_In; eauto. }
  destruct (call_on cfg c coll params max_limit plain keyed codec cursors
              (set_next params (VStr tokN)) (Some n) None)
    as (page2 & R2 & Res2 & _); auto.
  { simpl. split; [exact Hn | now rewrite EtokN]. }
  fold pf q0 l asc in Res2. rewrite xorb_false_r in Res2.
  exists page2. split; [exact R2 |].
  rewrite Res1, Res2, <- strip_app, <- map_app. f_equal. f_equal.
  unfold docs1, scan.
  set (srt := sort_docs (sort_spec pf asc) (filter (matches q0) coll)).
  change (scan_pred pf asc (Some n)) with (scan_before pf asc n).
  rewrite (after_page obj (scan_before pf asc) (scan_before_irrefl pf asc)
             (scan_before_trans pf asc) srt (scan_pred pf asc d0) l n).
  - apply firstn_twice.
  - apply (scan_sorted coll params plain keyed).
  - apply scan_pred_upward.
  - exact En.
Qed.

(** Lines 125-136 and 152.  Whatever cursor a call has, the documents of
    its page are documents of the collection that match the caller's
    query, at most the limit of them, in the order the caller asked for:
    by [paginatedField], then by [_id], upwards when [sortAscending] is
    truthy and downwards otherwise. *)
Theorem page_is_in_requested_order :
  forall (x : Params) (dn dp : option obj) (page : Response.t),
    query x = query params -> limit x = limit params ->
    fields x = fields params -> paginatedField x = paginatedField params ->
    sortAscending x = sortAscending params ->
    handed_out c pf coll dn (next x) ->
    handed_out c pf coll dp (previous x) ->
    run_outcome (paginate cfg c (mongo coll) x) = Resolved page ->
    exists shown,
      Response.results page =
        strip (prepare cfg params)
              (map (project (proj_fields (prepare cfg params))) shown) /\
      sorted_by (scan_before pf asc) shown /\
      (List.length shown <= l)%nat /\
      forall d, In d shown -> In d coll /\ matches q0 d = true.
Proof.
  intros x dn dp page Hq Hl Hf Hpf Hsa Hn Hp Hrun.
  destruct (call_on cfg c coll params max_limit plain keyed codec cursors
              x dn dp) as (page1 & R1 & Res1 & _); auto.
  rewrite Hrun in R1. injection R1 as <-.
  fold pf q0 l asc in Res1.
  set (start := match dn with Some d => Some d | None => dp end) in *.
  set (back := match dp with Some _ => true | None => false end) in *.
  set (docs := firstn l (scan coll q0 pf (xorb asc back) start)) in *.
  assert (Hsorted : sorted_by (scan_before pf (xorb asc back)) docs).
  { apply sorted_by_firstn. unfold scan. apply sorted_by_filter.
    apply (scan_sorted coll params plain keyed). }
  assert (Hlen : (List.length docs <= l)%nat) by apply firstn_le_length.
  assert (Hin : forall d, In d docs -> In d coll /\ matches q0 d = true).
  { intros d Hd.
    assert (H' : In d (scan coll q0 pf (xorb asc back) start)).
    { rewrite <- (firstn_skipn l). apply in_or_app. now left. }
    unfold scan, sort_docs in H'.
    apply filter_In in H' as [H' _]. apply sort_by_In in H'.
    now apply filter_In in H'. }
  exists (if back then rev docs else docs). split; [exact Res1 |].
  destruct back.
  - rewrite xorb_true_r in Hsorted. split; [| split].
    + apply sorted_by_rev in Hsorted.
      eapply sorted_by_ext; [| exact Hsorted].
      intros a b. cbv beta. apply scan_before_flip.
    + now rewrite length_rev.
    + intros d Hd. apply Hin. now apply in_rev.
  - rewrite xorb_false_r in Hsorted. auto.
Qed.

(** Lines 144-149 on a collection.  [hasNext] of a page reached without
    [previous] is true exactly when the scan has documents beyond the
    page, and [hasPrevious] of a page reached with [previous] alone is
    true exactly when the scan back has. *)
Theorem more_flags_are_accurate :
  forall (x : Params) (dn dp : option obj) (page : Response.t),
    query x = query params -> limit x = limit params ->
    fields x = fields params -> paginatedField x = paginatedField params ->
    sortAscending x = sortAscending params ->
    handed_out c pf coll dn (next x) ->
    handed_out c pf coll dp (previous x) ->
    run_outcome (paginate cfg c (mongo coll) x) = Resolved page ->
    (dp = None ->
     (Response.hasNext page = true <->
      (l < List.length (scan coll q0 pf asc dn))%nat)) /\
    (dn = None -> dp <> None ->
     (Response.hasPrevious page = true <->
      (l < List.length (scan coll q0 pf (negb asc) dp))%nat)).
Proof.
  intros x dn dp page Hq Hl Hf Hpf Hsa Hn Hp Hrun.
  destruct (call_on_flags x dn dp page Hq Hl Hf Hpf Hsa Hn Hp Hrun)
    as (HhasP & HhasN).
  split.
  - intros ->. rewrite HhasN. simpl. rewrite xorb_false_r.
    replace (match dn with Some d => Some d | None => None end) with dn
      by now destruct dn.
    apply Nat.ltb_lt.
  - intros -> Hsome. destruct dp as [p |]; [| contradiction].
    rewrite HhasP. simpl. rewrite xorb_true_r. apply Nat.ltb_lt.
Qed.

(** Lines 100-123 with 146-152.  The page of a call with a [previous]
    token alone is, in the caller's order, the documents (at most the
    limit) that come just before the document of the token. *)
Theorem previous_page_is_adjacent :
  forall (x : Params) (p : obj) (page : Response.t),
    query x = query params -> limit x = limit params ->
    fields x = fields params -> paginatedField x = paginatedField params ->
    sortAscending x = sortAscending params ->
    supplied (next x) = false ->
    handed_out c pf coll (Some p) (previous x) ->
    run_outcome (paginate cfg c (mongo coll) x) = Resolved page ->
    let before_p :=
      filter (fun y => scan_before pf asc y p)
             (sort_docs (sort_spec pf asc) (filter (matches q0) coll)) in
    Response.results page =
      strip (prepare cfg params)
            (map (project (proj_fields (prepare cfg params)))
                 (skipn (List.length before_p - l) before_p)).
Proof.
  intros x p page Hq Hl Hf Hpf Hsa Hn Hp Hrun before_p.
  destruct (call_on cfg c coll params max_limit plain keyed codec cursors
              x None (Some p)) as (page1 & R1 & Res1 & _); auto.
  rewrite Hrun in R1. injection R1 as <-.
  fold pf q0 l asc in Res1. rewrite Res1. f_equal. f_equal.
  rewrite xorb_true_r.
  pose proof (scan_opposite coll params plain keyed asc p) as Ho.
  fold pf q0 in Ho. fold before_p in Ho. rewrite Ho.
  rewrite firstn_rev. apply rev_involutive.
Qed.

(** Lines 77-123 and 139, read by the store.  A document of the
    collection passes the filter of a call exactly when it matches the
    caller's query and comes strictly after the document of the cursor in
    the direction of the scan; the document of the cursor itself never
    passes. *)
Theorem filter_selects_beyond_cursor :
  forall (x : Params) (dn dp : option obj),
    query x = query params -> limit x = limit params ->
    fields x = fields params -> paginatedField x = paginatedField params ->
    sortAscending x = sortAscending params ->
    handed_out c pf coll dn (next x) ->
    handed_out c pf coll dp (previous x) ->
    let start := match dn with Some d => Some d | None => dp end in
    let back := match dp with Some _ => true | None => false end in
    exists q,
      run_calls (paginate cfg c (mongo coll) x) = [q] /\
      (forall d, In d coll ->
         matches (q_filter q) d =
         matches q0 d && scan_pred pf (xorb asc back) start d) /\
      (forall d0, start = Some d0 -> matches (q_filter q) d0 = false).
Proof.
  intros x dn dp Hq Hl Hf Hpf Hsa Hn Hp start back.
  destruct (call_on_params x dn dp Hq Hl Hf Hpf Hsa Hn Hp)
    as (p & Hdec & HPpf & HPq & HPl & HPl1 & HTn & HTp & HPs & Hstart & _).
  rewrite (paginate_inl cfg c (mongo coll) x p Hdec). cbn [run_calls].
  set (P := proj_params (prepare cfg p)) in *.
  assert (Hplain : plain_field (params_paginatedField P) = true)
    by now rewrite HPpf.
  assert (Hkeyed : well_keyed (params_paginatedField P) coll = true)
    by now rewrite HPpf.
  assert (Hm : forall d, In d coll ->
             matches (q_filter (find_query P (proj_fields (prepare cfg p)))) d =
             matches q0 d && scan_pred pf (xorb asc back) start d).
  { intros d Hd.
    rewrite (matches_find_query coll P _ start d Hplain Hkeyed Hstart Hd).
    now rewrite HPq, HPpf, HPs. }
  eexists. split; [reflexivity |]. split; [exact Hm |].
  intros d0 E.
  assert (Hd0 : In d0 coll).
  { fold start in Hstart. rewrite E in Hstart. simpl in Hstart. tauto. }
  rewrite (Hm d0 Hd0), E. simpl. rewrite scan_before_irrefl.
  apply andb_false_r.
Qed.

End Paging.

Ltac by_computation :=
  first [ reflexivity
        | simpl; lia
        | unfold round_trips; repeat constructor; discriminate
        | repeat constructor
        | simpl; split; [tauto | reflexivity] ].

Lemma next_page_continues_witness :
  exists pageN1,
    run_outcome (paginate demo_config demo_codec (mongo posts) by_date_next)
      = Resolved pageN1.
Proof.
  destruct (next_page_continues demo_config demo_codec posts by_date
              ltac:(by_computation) ltac:(by_computation)
              ltac:(by_computation) ltac:(by_computation)
              ltac:(by_computation) None _ "[d1005,n105"
              eq_refl eq_refl eq_refl eq_refl) as (pageN1 & Hrun & _).
  exists pageN1. exact Hrun.
Defined.

Lemma page_is_in_requested_order_witness :
  exists page shown,
    run_outcome (paginate demo_config demo_codec (mongo posts) by_date_both)
      = Resolved page /\
    sorted_by (scan_before "date" true) shown /\
    Response.results page =
      strip (prepare demo_config by_date)
            (map (project (proj_fields (prepare demo_config by_date))) shown).
Proof.
  eexists.
  destruct (page_is_in_requested_order demo_config demo_codec posts by_date
              ltac:(by_computation) ltac:(by_computation)
              ltac:(by_computation) ltac:(by_computation)
              ltac:(by_computation)
              by_date_both (Some (post 5)) (Some (post 6)) _
              eq_refl eq_refl eq_refl eq_refl eq_refl
              ltac:(by_computation) ltac:(by_computation) eq_refl)
    as (shown & Hres & Hsorted & _).
  exists shown. split; [reflexivity |]. split; [exact Hsorted | exact Hres].
Defined.

Lemma more_flags_are_accurate_witness :
  exists page,
    run_outcome (paginate demo_config demo_codec (mongo posts) by_date)
      = Resolved page /\
    Response.hasNext page = true.
Proof.
  eexists. split; [reflexivity |].
  destruct (more_flags_are_accurate demo_config demo_codec posts by_date
              ltac:(by_computation) ltac:(by_computation)
              ltac:(by_computation) ltac:(by_computation)
              ltac:(by_computation)
              by_date None None _
              eq_refl eq_refl eq_refl eq_refl eq_refl
              eq_refl eq_refl eq_refl) as (Hnext & _).
  apply (Hnext eq_refl). vm_compute. lia.
Defined.

Lemma previous_page_is_adjacent_witness :
  exists page,
    run_outcome (paginate demo_config demo_codec (mongo posts)
                   (set_previous by_date (VStr "[d1006,n106")))
      = Resolved page /\
    Response.results page =
      [[("title", VStr "Post"); ("date", VDate 1001)];
       [("title", VStr "Post"); ("date", VDate 1002)];
       [("title", VStr "Post"); ("date", VDate 1003)];
       [("title", VStr "Post"); ("date", VDate 1004)];
       [("title", VStr "Post"); ("date", VDate 1005)]].
Proof.
  eexists. split; [reflexivity |].
  rewrite (previous_page_is_adjacent demo_config demo_codec posts by_date
             ltac:(by_computation) ltac:(by_computation)
             ltac:(by_computation) ltac:(by_computation)
             ltac:(by_computation)
             (set_previous by_date (VStr "[d1006,n106")) (post 6) _
             eq_refl eq_refl eq_refl eq_refl eq_refl eq_refl
             ltac:(by_computation) eq_refl).
  reflexivity.
Defined.

Lemma filter_selects_beyond_cursor_witness :
  exists q,
    run_calls (paginate demo_config demo_codec (mongo posts) by_date_next)
      = [q] /\
    matches (q_filter q) (post 5) = false.
Proof.
  destruct (filter_selects_beyond_cursor demo_config demo_codec posts by_date
              ltac:(by_computation) ltac:(by_computation)
              ltac:(by_computation) ltac:(by_computation)
              ltac:(by_computation)
              by_date_next (Some (post 5)) None
              eq_refl eq_refl eq_refl eq_refl eq_refl
              ltac:(by_computation) eq_refl)
    as (q & Hq & _ & Hself).
  exists q. split; [exact Hq |]. apply Hself. reflexivity.
Defined.

(** Lines 144-149 at the end of a scan.  A page reached without
    [previous] whose [hasNext] is false holds every document the scan
    still had: nothing that matches lies beyond it. *)
Theorem last_page_is_complete :
  forall (cfg : Config) (c : Codec) (coll : list obj) (params : Params)
         (d0 : option obj) (page : Response.t),
    1 <= MAX_LIMIT cfg ->
    plain_field (effective_field params) = true ->
    well_keyed (effective_field params) coll = true ->
    round_trips c (effective_field params) coll ->
    Forall (fun d => truthy (cursor_of (effective_field params) d) = true) coll ->
    supplied (previous params) = false ->
    handed_out c (effective_field params) coll d0 (next params) ->
    run_outcome (paginate cfg c (mongo coll) params) = Resolved page ->
    Response.hasNext page = false ->
    Response.results page =
      strip (prepare cfg params)
            (map (project (proj_fields (prepare cfg params)))
                 (scan coll (effective_query params) (effective_field params)
                       (flag (sortAscending params)) d0)).
Proof.
  intros cfg c coll params d0 page Hmax Hplain Hkeyed Hcodec Hcur Hp Hn Hrun
    Hlast.
  destruct (call_on cfg c coll params Hmax Hplain Hkeyed Hcodec Hcur
              params d0 None) as (page1 & R1 & Res1 & _); auto.
  rewrite Hrun in R1. injection R1 as <-.
  destruct (call_on_flags cfg c coll params Hmax Hplain Hkeyed Hcodec Hcur
              params d0 None page) as (_ & HhasN); auto.
  rewrite Hlast in HhasN. cbn [orb] in HhasN.
  rewrite xorb_false_r in Res1, HhasN.
  replace (match d0 with Some d => Some d | None => None end) with d0
    in Res1, HhasN by now destruct d0.
  symmetry in HhasN. apply Nat.ltb_ge in HhasN.
  rewrite Res1. now rewrite firstn_all2.
Qed.

Lemma last_page_is_complete_witness :
  exists page,
    run_outcome (paginate demo_config demo_codec (mongo [post 1; post 2]) by_date)
      = Resolved page /\
    List.length (Response.results page) = 2%nat.
Proof.
  eexists. split; [reflexivity |].
  rewrite (last_page_is_complete demo_config demo_codec [post 1; post 2]
             by_date None _
             ltac:(by_computation) ltac:(by_computation)
             ltac:(by_computation) ltac:(by_computation)
             ltac:(by_computation) eq_refl eq_refl eq_refl eq_refl).
  reflexivity.
Defined.

(** ** A cursor of the wrong shape *)

(** Lines 78-92.  When [paginatedField] is not ['_id'] and the [next]
    token decodes to a single number, date or [true] (a cursor made for
    paging by ['_id']), nothing is thrown: [next[0]] and [next[1]] read as
    [undefined], and the range filter compares both fields with
    [undefined]. *)
Theorem scalar_cursor_reads_undefined :
  forall (cfg : Config) (c : Codec) (this : Model) (params : Params)
         (token : string) (v : value),
    supplied (previous params) = false ->
    next params = VStr token -> token <> "" ->
    decode c token = Some v ->
    ((exists n, n <> 0 /\ v = VNum n) \/ (exists ms, v = VDate ms)
     \/ v = VBool true) ->
    effective_field params <> "_id" ->
    let P := run_params (paginate cfg c this params) in
    let pf := effective_field params in
    let op := comparisonOp P in
    exists q,
      run_calls (paginate cfg c this params) = [q] /\
      q_filter q =
        VObj [("$and",
               VArr [effective_query params;
                     VObj [("$or", VArr [
                       VObj [(pf, VObj [(op, VUndef)])];
                       VObj [(pf, VObj [("$eq", VUndef)]);
                             ("_id", VObj [(op, VUndef)])]])]])].
Proof.
  intros cfg c this params token v Hp Hn Hne Hdec Hv Hpf.
  pose proof (decode_next_only c params token v Hp Hn Hne Hdec) as Hd.
  rewrite (paginate_inl cfg c this params _ Hd). cbn [run_params run_calls].
  set (p := set_next (set_previous params (previous params)) v) in *.
  pose proof (prepare_frame cfg p) as (En & _ & _ & _ & Eq & Epf).
  set (P := proj_params (prepare cfg p)) in *.
  assert (Tn : supplied (next P) = true).
  { rewrite En. unfold supplied, p. cbn [next set_next].
    destruct Hv as [(n & Hn0 & ->) | [(ms & ->) | ->]]; simpl; auto.
    destruct (Z.eqb_spec n 0); [contradiction | reflexivity]. }
  assert (H0 : js_index (next P) 0 = VUndef /\ js_index (next P) 1 = VUndef).
  { rewrite En. unfold p. cbn [next set_next].
    destruct Hv as [(n & _ & ->) | [(ms & ->) | ->]]; split; reflexivity. }
  destruct H0 as [H0 H1].
  eexists. split; [reflexivity |]. cbn [find_query q_filter].
  rewrite (queries_supplied P (or_introl Tn)).
  unfold range_query, range_cursor, shouldSecondarySortOnId.
  rewrite Tn, H0, H1, Eq, Epf.
  change (match paginatedField p with Some f => f | None => "_id" end)
    with (effective_field params).
  change (match query p with Some q => q | None => VObj [] end)
    with (effective_query params).
  destruct (String.eqb_spec (effective_field params) "_id");
    [contradiction | reflexivity].
Qed.

Lemma scalar_cursor_reads_undefined_witness :
  exists q,
    run_calls (paginate demo_config demo_codec (mongo posts)
                 (set_next by_date (VStr "n105"))) = [q] /\
    q_filter q =
      VObj [("$and",
             VArr [VObj [];
                   VObj [("$or", VArr [
                     VObj [("date", VObj [("$gt", VUndef)])];
                     VObj [("date", VObj [("$eq", VUndef)]);
                           ("_id", VObj [("$gt", VUndef)])]])]])].
Proof.
  destruct (scalar_cursor_reads_undefined demo_config demo_codec (mongo posts)
              (set_next by_date (VStr "n105")) "n105" (VNum 105)
              eq_refl eq_refl ltac:(discriminate) eq_refl
              ltac:(left; exists 105; split; [discriminate | reflexivity])
              ltac:(discriminate)) as (q & Hq & Hf).
  exists q. split; [exact Hq | exact Hf].
Defined.
